(** * Streaming statistics: a shallow embedding of math-stats

    Two source files are embedded:
    - [maths-stats-v3.go] (module [V3]): running aggregate, two-heap median
      with a signed balance counter, ring buffer for percentiles, cache;
    - the single-mutex version (module [Part001]): running aggregate,
      two-heap median balanced by direct size comparison, and a fully
      sorted history for percentiles.
    [container/heap], [sort.Float64s] and [sort.Search] are Go's standard
    library; they are transcribed next to the code that calls them.

    Conventions of the embedding.
    - Where the code only stores, moves and compares [float64] values (the
      two heaps, the ring buffer, the sorted slices, [minVal]/[maxVal]) the
      values are finite, non-NaN numbers, written as rationals [Qc]: on such
      values a comparison of two [float64] is the comparison of the numbers
      they denote.  The two sentinels [math.Inf(1)] and [math.Inf(-1)] of
      [minVal]/[maxVal] are explicit constructors of [xfloat].
    - Where the code computes with [float64] (the running sum and the mean,
      the rank product of [GetPercentile]) the result depends on the
      rounding.  Module [F64] is IEEE 754 binary64 (round to nearest, ties
      to even, with infinities and NaN) and module [V3_float64] holds these
      computations as the code carries them out.  The functions of the same
      name in [V3] and [Part001] ([GetMean], the midpoint of [GetMedian],
      [percentile_index]) take the sum, the quotient and the product
      exactly and the index as an unbounded integer; their comments say so,
      and so do the properties that are stated with them.
    - [int64] arithmetic on [count] wraps ([wrap64]); [balanceCounter] is
      an unbounded integer, it stays within [-2, 2] ([V3_heaps_spec]);
      slice lengths and indices are natural numbers.
    - A method is a computation in the monad [M]: it receives the engine
      state and either returns a value with the new state or panics
      (index out of range, assignment to an entry of a nil map, ...).
    - The monad is sequential: one method runs to completion on the state,
      and the [sync.Mutex] fields are not part of the state.  Modules
      [Locks], [V3_locks] and [Part001_locks] add the mutexes: a method is
      the list of its [Lock], [Unlock] and critical sections in program
      order, and goroutines are interleaved between these steps.
    - A slice is the list of its elements; its capacity is its length, as
      for every slice the code makes ([make([]float64, cap)], [append] onto
      a nil slice).
    - [Peek], and [Swap] of [MaxHeap] in [maths-stats-v3.go], index their
      pointer receiver; they are read as indexing the slice it points to. *)

From Stdlib Require Import ZArith QArith Qcanon Qround Lia ZifyNat SpecFloat.
From stdpp Require Import base numbers list sorting gmap.
Close Scope Q_scope.

(** ** Numbers *)

Global Instance Qc_inhabited : Inhabited Qc := populate 0%Qc.

(** [float64(n)] for an integer [n]. *)
Definition float64_of_Z (n : Z) : Qc := Qc_of_Z n.
Definition float64_of_nat (n : nat) : Qc := Qc_of_Z (Z.of_nat n).

(** A [float64] that may also be one of the two infinities. *)
Inductive xfloat : Type :=
  | NegInf : xfloat
  | Fin (q : Qc) : xfloat
  | PosInf : xfloat.

(** [a < b] on [float64] values including the infinities. *)
Definition xltb (a b : xfloat) : bool :=
  match a, b with
  | NegInf, NegInf => false
  | NegInf, _ => true
  | Fin _, NegInf => false
  | Fin x, Fin y => bool_decide (x < y)%Qc
  | Fin _, PosInf => true
  | PosInf, _ => false
  end.

(** Two's complement wrap-around of [int64]. *)
Definition wrap64 (z : Z) : Z := ((z + 2 ^ 63) mod 2 ^ 64 - 2 ^ 63)%Z.

(** ** Results and the method monad *)

Inductive Result (St A : Type) : Type :=
  | Ok (a : A) (s : St) : Result St A
  | Panic : Result St A.
Arguments Ok {St A} a s.
Arguments Panic {St A}.

Definition M (St A : Type) : Type := St → Result St A.

Global Instance M_ret {St} : MRet (M St) := λ A a s, Ok a s.
Global Instance M_bind {St} : MBind (M St) := λ A B f m s,
  match m s with
  | Ok a s' => f a s'
  | Panic => Panic
  end.

Definition get {St} : M St St := λ s, Ok s s.
Definition modify {St} (f : St → St) : M St () := λ s, Ok () (f s).
Definition panic {St A} : M St A := λ _, Panic.

(** A partial read (an indexing that may be out of range). *)
Definition lift {St A} (o : option A) : M St A :=
  match o with
  | Some a => mret a
  | None => panic
  end.

(** The value a computation returns, [None] when it panics. *)
Definition value {St A} (r : Result St A) : option A :=
  match r with
  | Ok a _ => Some a
  | Panic => None
  end.

(** The state a computation leaves, [None] when it panics. *)
Definition state {St A} (r : Result St A) : option St :=
  match r with
  | Ok _ s => Some s
  | Panic => None
  end.

(** ** container/heap over a slice of [float64]

    [MinHeap] and [MaxHeap] are both [[]float64]; they differ in [Less]
    only, so the functions of [container/heap] take the comparison of the
    elements as a parameter. *)

Module heap.
Section container_heap.
Variable less : Qc → Qc → bool.

(** [h.Less(i, j)].  [up] and [down] call [Less] and [Swap] with indices
    below [h.Len()] only, so the default of the total lookup is never
    read. *)
Definition Less (h : list Qc) (i j : nat) : bool :=
  less (h !!! i) (h !!! j).

(** [h.Swap(i, j)]: [h[i], h[j] = h[j], h[i]] *)
Definition Swap (h : list Qc) (i j : nat) : list Qc :=
  <[j := h !!! i]> (<[i := h !!! j]> h).

(** [up(h, j)].  The parent is [(j - 1) / 2]; for [j = 0] Go's division
    truncates [-1 / 2] to [0], as the truncated subtraction here does. *)
Fixpoint up (fuel : nat) (h : list Qc) (j : nat) : list Qc :=
  match fuel with
  | O => h
  | S fuel =>
      let i := (j - 1) / 2 in
      if bool_decide (i = j) || negb (Less h j i) then h
      else up fuel (Swap h i j) i
  end.

(** [down(h, i0, n)], without the boolean it returns. *)
Fixpoint down (fuel : nat) (h : list Qc) (i n : nat) : list Qc :=
  match fuel with
  | O => h
  | S fuel =>
      let j1 := 2 * i + 1 in
      if bool_decide (n ≤ j1) then h
      else
        let j :=
          if bool_decide (j1 + 1 < n) && Less h (j1 + 1) j1
          then j1 + 1 else j1 in
        if negb (Less h j i) then h
        else down fuel (Swap h i j) j n
  end.

(** [heap.Push(h, x)]: [h.Push(x)] appends, then [up(h, h.Len()-1)]. *)
Definition Push (h : list Qc) (x : Qc) : list Qc :=
  let h' := h ++ [x] in
  up (length h') h' (length h' - 1).

(** [heap.Pop(h)]: [n := h.Len() - 1; h.Swap(0, n); down(h, 0, n)] and
    then [h.Pop()], which returns the last element and cuts it off.
    On an empty heap [Swap(0, -1)] indexes out of range. *)
Definition Pop (h : list Qc) : option (Qc * list Qc) :=
  match length h with
  | O => None
  | S n =>
      let h1 := Swap h 0 n in
      let h2 := down (length h) h1 0 n in
      x ← h2 !! n;
      Some (x, take n h2)
  end.
End container_heap.

(** [h.Peek()]: [h[0]], out of range on an empty heap. *)
Definition Peek (h : list Qc) : option Qc := h !! 0.
End heap.

(** [MinHeap.Less]: [h[i] < h[j]] *)
Definition MinHeap_less (a b : Qc) : bool := bool_decide (a < b)%Qc.
(** [MaxHeap.Less]: [h[i] > h[j]] *)
Definition MaxHeap_less (a b : Qc) : bool := bool_decide (b < a)%Qc.

(** [sort.Float64s]: ascending sort.  On a total order without NaN the
    result does not depend on the sorting algorithm. *)
Definition sort_Float64s (l : list Qc) : list Qc := merge_sort Qcle l.

(** [sort.Search(n, f)]: binary search for the least index in [0, n] at
    which [f] holds. *)
Fixpoint sort_Search_loop (fuel : nat) (f : nat → bool) (i j : nat) : nat :=
  match fuel with
  | O => i
  | S fuel =>
      if bool_decide (i < j) then
        let h := (i + j) / 2 in
        if negb (f h) then sort_Search_loop fuel f (h + 1) j
        else sort_Search_loop fuel f i h
      else i
  end.

Definition sort_Search (n : nat) (f : nat → bool) : nat :=
  sort_Search_loop (S n) f 0 n.

(** [sort.SearchFloat64s(a, x)]: [sort.Search(len(a), a[i] >= x)]. *)
Definition sort_SearchFloat64s (a : list Qc) (x : Qc) : nat :=
  sort_Search (length a) (λ i, bool_decide (x ≤ a !!! i)%Qc).

(** ** maths-stats-v3.go *)

Module V3.

(** *** RingBuffer *)
Module RingBuffer.
Record t : Type := mk {
  data : list Qc;
  head : nat;
  size : nat;
  cap : nat
}.

(** [rb.Add(val)].  [rb.data[rb.head] = val] is out of range when the
    buffer has no slot, and [% rb.cap] divides by zero when [cap = 0]. *)
Definition Add (val : Qc) : M t () := λ rb,
  if bool_decide (head rb < length (data rb)) then
    let data' := <[head rb := val]> (data rb) in
    if bool_decide (cap rb = 0) then Panic
    else
      let head' := (head rb + 1) mod cap rb in
      let size' := if bool_decide (size rb < cap rb) then size rb + 1
                   else size rb in
      Ok () (mk data' head' size' (cap rb))
  else Panic.

(** [rb.GetSorted()]: a copy of [rb.data[:rb.size]] is made by [append]
    onto a nil slice, and the copy is sorted.  The slice expression is
    out of range when [size] exceeds the capacity of [data], which is its
    length for the slice [NewRingBuffer] makes (a slice with spare capacity
    is not represented). *)
Definition GetSorted : M t (list Qc) := λ rb,
  if bool_decide (size rb ≤ length (data rb)) then
    let sorted := take (size rb) (data rb) in
    let sorted := sort_Float64s sorted in
    Ok sorted rb
  else Panic.
End RingBuffer.

(** [NewRingBuffer(cap)]: [make([]float64, cap)] is zero-filled.  A negative
    capacity makes [make] panic and is excluded by the type. *)
Definition NewRingBuffer (cap : nat) : RingBuffer.t :=
  RingBuffer.mk (replicate cap 0%Qc) 0 0 cap.

(** *** CachedStats and DataStreamStats

    A Go map is [None] when nil.  A map is a reference, and the snapshot
    [GetCachedStats] returns shares it with [ds.cached]; every state
    reached from [NewDataStreamStats] has the nil map ([V3_feed_cache]), so
    that no sharing arises. *)
Record CachedStats : Type := mkCachedStats {
  mean : Qc;
  median : Qc;
  percentile : option (gmap Z Qc)
}.

Record DataStreamStats : Type := mkDataStreamStats {
  totalSum : Qc;
  count : Z;
  minVal : xfloat;
  maxVal : xfloat;
  lower : list Qc;
  upper : list Qc;
  recentData : RingBuffer.t;
  balanceCounter : Z;
  cached : CachedStats;
  cacheUpdated : bool;
  cachePercentile : option (gmap Z Qc)
}.

Definition set_totalSum (v : Qc) (ds : DataStreamStats) : DataStreamStats :=
  mkDataStreamStats v (count ds) (minVal ds) (maxVal ds) (lower ds) (upper ds)
    (recentData ds) (balanceCounter ds) (cached ds) (cacheUpdated ds)
    (cachePercentile ds).
Definition set_count (v : Z) (ds : DataStreamStats) : DataStreamStats :=
  mkDataStreamStats (totalSum ds) v (minVal ds) (maxVal ds) (lower ds)
    (upper ds) (recentData ds) (balanceCounter ds) (cached ds)
    (cacheUpdated ds) (cachePercentile ds).
Definition set_minVal (v : xfloat) (ds : DataStreamStats) : DataStreamStats :=
  mkDataStreamStats (totalSum ds) (count ds) v (maxVal ds) (lower ds)
    (upper ds) (recentData ds) (balanceCounter ds) (cached ds)
    (cacheUpdated ds) (cachePercentile ds).
Definition set_maxVal (v : xfloat) (ds : DataStreamStats) : DataStreamStats :=
  mkDataStreamStats (totalSum ds) (count ds) (minVal ds) v (lower ds)
    (upper ds) (recentData ds) (balanceCounter ds) (cached ds)
    (cacheUpdated ds) (cachePercentile ds).
Definition set_lower (v : list Qc) (ds : DataStreamStats) : DataStreamStats :=
  mkDataStreamStats (totalSum ds) (count ds) (minVal ds) (maxVal ds) v
    (upper ds) (recentData ds) (balanceCounter ds) (cached ds)
    (cacheUpdated ds) (cachePercentile ds).
Definition set_upper (v : list Qc) (ds : DataStreamStats) : DataStreamStats :=
  mkDataStreamStats (totalSum ds) (count ds) (minVal ds) (maxVal ds)
    (lower ds) v (recentData ds) (balanceCounter ds) (cached ds)
    (cacheUpdated ds) (cachePercentile ds).
Definition set_recentData (v : RingBuffer.t) (ds : DataStreamStats)
  : DataStreamStats :=
  mkDataStreamStats (totalSum ds) (count ds) (minVal ds) (maxVal ds)
    (lower ds) (upper ds) v (balanceCounter ds) (cached ds)
    (cacheUpdated ds) (cachePercentile ds).
Definition set_balanceCounter (v : Z) (ds : DataStreamStats)
  : DataStreamStats :=
  mkDataStreamStats (totalSum ds) (count ds) (minVal ds) (maxVal ds)
    (lower ds) (upper ds) (recentData ds) v (cached ds) (cacheUpdated ds)
    (cachePercentile ds).
Definition set_cached (v : CachedStats) (ds : DataStreamStats)
  : DataStreamStats :=
  mkDataStreamStats (totalSum ds) (count ds) (minVal ds) (maxVal ds)
    (lower ds) (upper ds) (recentData ds) (balanceCounter ds) v
    (cacheUpdated ds) (cachePercentile ds).
Definition set_cacheUpdated (v : bool) (ds : DataStreamStats)
  : DataStreamStats :=
  mkDataStreamStats (totalSum ds) (count ds) (minVal ds) (maxVal ds)
    (lower ds) (upper ds) (recentData ds) (balanceCounter ds) (cached ds) v
    (cachePercentile ds).

(** A method of [ds.recentData] run on the engine state. *)
Definition on_recentData {A} (m : M RingBuffer.t A) : M DataStreamStats A :=
  λ ds,
    match m (recentData ds) with
    | Ok a rb => Ok a (set_recentData rb ds)
    | Panic => Panic
    end.

(** [NewDataStreamStats(capacity)]: [cached] is the zero [CachedStats], whose
    [percentile] map is nil; the map that is made goes to the separate field
    [cachePercentile]. *)
Definition NewDataStreamStats (capacity : nat) : DataStreamStats :=
  {| totalSum := 0%Qc;
     count := 0;
     minVal := PosInf;
     maxVal := NegInf;
     lower := [];
     upper := [];
     recentData := NewRingBuffer capacity;
     balanceCounter := 0;
     cached := mkCachedStats 0%Qc 0%Qc None;
     cacheUpdated := false;
     cachePercentile := Some ∅ |}.

(** [ds.balanceHeaps()] *)
Definition balanceHeaps : M DataStreamStats () :=
  ds ← get;
  if bool_decide (1 < balanceCounter ds)%Z then
    '(x, lower') ← lift (heap.Pop MaxHeap_less (lower ds));
    modify (set_lower lower');;
    modify (λ ds, set_upper (heap.Push MinHeap_less (upper ds) x) ds);;
    modify (λ ds, set_balanceCounter (balanceCounter ds - 1) ds)
  else if bool_decide (balanceCounter ds < -1)%Z then
    '(x, upper') ← lift (heap.Pop MinHeap_less (upper ds));
    modify (set_upper upper');;
    modify (λ ds, set_lower (heap.Push MaxHeap_less (lower ds) x) ds);;
    modify (λ ds, set_balanceCounter (balanceCounter ds + 1) ds)
  else mret ().

(** [ds.AddNumber(num)] *)
Definition AddNumber (num : Qc) : M DataStreamStats () :=
  (* Update basic stats *)
  modify (λ ds, set_totalSum (totalSum ds + num)%Qc ds);;
  modify (λ ds, set_count (wrap64 (count ds + 1)) ds);;
  modify (λ ds, if xltb (Fin num) (minVal ds) then set_minVal (Fin num) ds
                else ds);;
  modify (λ ds, if xltb (maxVal ds) (Fin num) then set_maxVal (Fin num) ds
                else ds);;
  (* Maintain heaps *)
  ds ← get;
  to_lower ←
    (if bool_decide (length (lower ds) = 0) then mret true
     else top ← lift (heap.Peek (lower ds));
          mret (bool_decide (num ≤ top)%Qc));
  (if to_lower : bool then
     modify (λ ds, set_lower (heap.Push MaxHeap_less (lower ds) num) ds);;
     modify (λ ds, set_balanceCounter (balanceCounter ds + 1) ds)
   else
     modify (λ ds, set_upper (heap.Push MinHeap_less (upper ds) num) ds);;
     modify (λ ds, set_balanceCounter (balanceCounter ds - 1) ds));;
  balanceHeaps;;
  (* Add to recent data (for percentiles) *)
  on_recentData (RingBuffer.Add num);;
  (* Invalidate cached stats *)
  modify (set_cacheUpdated false).

(** [ds.GetMean()], with the sum ([totalSum], accumulated by [AddNumber])
    and the quotient taken exactly.  [V3_float64.GetMean] is the
    computation in binary64. *)
Definition GetMean : M DataStreamStats Qc :=
  ds ← get;
  if bool_decide (count ds = 0%Z) then mret 0%Qc
  else mret (totalSum ds / float64_of_Z (count ds))%Qc.

(** [ds.GetMedian()].  The midpoint [(a + b) / 2] of the last branch is
    taken exactly; in binary64 [a + b] is rounded and overflows to an
    infinity for large [a] and [b].  The other branches compute nothing. *)
Definition GetMedian : M DataStreamStats Qc :=
  ds ← get;
  if bool_decide (count ds = 0%Z) then mret 0%Qc
  else if bool_decide (length (upper ds) < length (lower ds)) then
    lift (heap.Peek (lower ds))
  else
    a ← lift (heap.Peek (lower ds));
    b ← lift (heap.Peek (upper ds));
    mret ((a + b) / Qc_of_Z 2)%Qc.

(** [ds.GetMin()] and [ds.GetMax()] *)
Definition GetMin : M DataStreamStats xfloat := ds ← get; mret (minVal ds).
Definition GetMax : M DataStreamStats xfloat := ds ← get; mret (maxVal ds).

(** [int(math.Ceil((p / 100) * float64(n))) - 1], clamped below at 0, with
    the quotient and the product taken exactly and [int] unbounded.
    [V3_float64.percentile_index] is the computation in binary64 and
    [int64]; the two differ where the rounding of [p / 100] or of the
    product crosses an integer (p = 28, n = 25) and where the product
    leaves the range of [int64]. *)
Definition percentile_index (p : Qc) (n : nat) : Z :=
  let index := (Qceiling (p / Qc_of_Z 100 * float64_of_nat n)%Qc - 1)%Z in
  if bool_decide (index < 0)%Z then 0%Z else index.

(** [ds.GetPercentile(p)], with the index of [percentile_index]:
    [sorted[index]] is out of range when [index >= len(sorted)]. *)
Definition GetPercentile (p : Qc) : M DataStreamStats Qc :=
  sorted ← on_recentData RingBuffer.GetSorted;
  if bool_decide (length sorted = 0) then mret 0%Qc
  else
    let index := percentile_index p (length sorted) in
    lift (sorted !! Z.to_nat index).

(** [ds.cached.percentile[k] = v]: assignment to an entry of a nil map
    panics. *)
Definition cached_percentile_assign (k : Z) (v : Qc) : M DataStreamStats () :=
  λ ds,
    match percentile (cached ds) with
    | None => Panic
    | Some m =>
        Ok () (set_cached
                 (mkCachedStats (mean (cached ds)) (median (cached ds))
                    (Some (<[k := v]> m))) ds)
    end.

(** [ds.GetCachedStats()] *)
Definition GetCachedStats : M DataStreamStats CachedStats :=
  ds ← get;
  if cacheUpdated ds then mret (cached ds)
  else
    v ← GetMean;
    modify (λ ds, set_cached
                    (mkCachedStats v (median (cached ds))
                       (percentile (cached ds))) ds);;
    v ← GetMedian;
    modify (λ ds, set_cached
                    (mkCachedStats (mean (cached ds)) v
                       (percentile (cached ds))) ds);;
    v ← GetPercentile (Qc_of_Z 95);
    cached_percentile_assign 95 v;;
    v ← GetPercentile (Qc_of_Z 99);
    cached_percentile_assign 99 v;;
    modify (set_cacheUpdated true);;
    ds ← get;
    mret (cached ds).

(** The loop of [main] and of the benchmarks: one [AddNumber] per value. *)
Fixpoint feed (l : list Qc) : M DataStreamStats () :=
  match l with
  | [] => mret ()
  | x :: l => AddNumber x;; feed l
  end.

End V3.

(** ** The single-mutex version (part_001) *)

Module Part001.

Record DataStreamStats : Type := mkDataStreamStats {
  totalSum : Qc;
  count : Z;
  minVal : xfloat;
  maxVal : xfloat;
  lower : list Qc;
  upper : list Qc;
  sorted : list Qc
}.

Definition set_totalSum (v : Qc) (ds : DataStreamStats) : DataStreamStats :=
  mkDataStreamStats v (count ds) (minVal ds) (maxVal ds) (lower ds) (upper ds)
    (sorted ds).
Definition set_count (v : Z) (ds : DataStreamStats) : DataStreamStats :=
  mkDataStreamStats (totalSum ds) v (minVal ds) (maxVal ds) (lower ds)
    (upper ds) (sorted ds).
Definition set_minVal (v : xfloat) (ds : DataStreamStats) : DataStreamStats :=
  mkDataStreamStats (totalSum ds) (count ds) v (maxVal ds) (lower ds)
    (upper ds) (sorted ds).
Definition set_maxVal (v : xfloat) (ds : DataStreamStats) : DataStreamStats :=
  mkDataStreamStats (totalSum ds) (count ds) (minVal ds) v (lower ds)
    (upper ds) (sorted ds).
Definition set_lower (v : list Qc) (ds : DataStreamStats) : DataStreamStats :=
  mkDataStreamStats (totalSum ds) (count ds) (minVal ds) (maxVal ds) v
    (upper ds) (sorted ds).
Definition set_upper (v : list Qc) (ds : DataStreamStats) : DataStreamStats :=
  mkDataStreamStats (totalSum ds) (count ds) (minVal ds) (maxVal ds)
    (lower ds) v (sorted ds).
Definition set_sorted (v : list Qc) (ds : DataStreamStats) : DataStreamStats :=
  mkDataStreamStats (totalSum ds) (count ds) (minVal ds) (maxVal ds)
    (lower ds) (upper ds) v.

(** [NewDataStreamStats()] *)
Definition NewDataStreamStats : DataStreamStats :=
  {| totalSum := 0%Qc;
     count := 0;
     minVal := PosInf;
     maxVal := NegInf;
     lower := [];
     upper := [];
     sorted := [] |}.

(** [ds.AddNumber(num)] *)
Definition AddNumber (num : Qc) : M DataStreamStats () :=
  (* Update basic statistics *)
  modify (λ ds, set_totalSum (totalSum ds + num)%Qc ds);;
  modify (λ ds, set_count (wrap64 (count ds + 1)) ds);;
  modify (λ ds, if xltb (Fin num) (minVal ds) then set_minVal (Fin num) ds
                else ds);;
  modify (λ ds, if xltb (maxVal ds) (Fin num) then set_maxVal (Fin num) ds
                else ds);;
  (* Maintain heaps for median *)
  ds ← get;
  to_lower ←
    (if bool_decide (length (lower ds) = 0) then mret true
     else top ← lift (heap.Peek (lower ds));
          mret (bool_decide (num ≤ top)%Qc));
  (if to_lower : bool then
     modify (λ ds, set_lower (heap.Push MaxHeap_less (lower ds) num) ds)
   else
     modify (λ ds, set_upper (heap.Push MinHeap_less (upper ds) num) ds));;
  (* Balance heaps *)
  ds ← get;
  (if bool_decide (length (upper ds) + 1 < length (lower ds)) then
     '(x, lower') ← lift (heap.Pop MaxHeap_less (lower ds));
     modify (set_lower lower');;
     modify (λ ds, set_upper (heap.Push MinHeap_less (upper ds) x) ds)
   else if bool_decide (length (lower ds) < length (upper ds)) then
     '(x, upper') ← lift (heap.Pop MinHeap_less (upper ds));
     modify (set_upper upper');;
     modify (λ ds, set_lower (heap.Push MaxHeap_less (lower ds) x) ds)
   else mret ());;
  (* Insert number into sorted slice using binary insertion *)
  ds ← get;
  let idx := sort_SearchFloat64s (sorted ds) num in
  modify (set_sorted (take idx (sorted ds) ++ [num] ++ drop idx (sorted ds))).

(** [ds.GetMean()], with the sum and the quotient taken exactly, as
    [V3.GetMean]. *)
Definition GetMean : M DataStreamStats Qc :=
  ds ← get;
  if bool_decide (count ds = 0%Z) then mret 0%Qc
  else mret (totalSum ds / float64_of_Z (count ds))%Qc.

(** [ds.GetMedian()], with the midpoint of the last branch taken exactly, as
    [V3.GetMedian]. *)
Definition GetMedian : M DataStreamStats Qc :=
  ds ← get;
  if bool_decide (count ds = 0%Z) then mret 0%Qc
  else if bool_decide (length (upper ds) < length (lower ds)) then
    lift (heap.Peek (lower ds))
  else
    a ← lift (heap.Peek (lower ds));
    b ← lift (heap.Peek (upper ds));
    mret ((a + b) / Qc_of_Z 2)%Qc.

(** [ds.GetMin()] and [ds.GetMax()] *)
Definition GetMin : M DataStreamStats xfloat := ds ← get; mret (minVal ds).
Definition GetMax : M DataStreamStats xfloat := ds ← get; mret (maxVal ds).

(** [ds.GetPercentile(p)], on the sorted history, with the index taken
    exactly and unbounded, as [V3.percentile_index]. *)
Definition GetPercentile (p : Qc) : M DataStreamStats Qc :=
  ds ← get;
  if bool_decide (length (sorted ds) = 0) then mret 0%Qc
  else
    let index :=
      (Qceiling (p / Qc_of_Z 100 * float64_of_nat (length (sorted ds)))%Qc
       - 1)%Z in
    let index := if bool_decide (index < 0)%Z then 0%Z else index in
    lift (sorted ds !! Z.to_nat index).

(** The worker of [main]: one [AddNumber] per value of the stream. *)
Fixpoint feed (l : list Qc) : M DataStreamStats () :=
  match l with
  | [] => mret ()
  | x :: l => AddNumber x;; feed l
  end.

End Part001.

(** ** binary64

    [float64] as IEEE 754 binary64: 53 bits of precision, exponents up to
    1024, every operation rounded to nearest with ties to even.  The
    operations are those of [SpecFloat]; a value is a signed zero, a signed
    infinity, NaN, or [(-1)^s * m * 2^e]. *)

Module F64.
Definition t : Type := spec_float.
Definition prec : Z := 53.
Definition emax : Z := 1024.

(** The zero value of [float64], and [math.Inf(sign)]. *)
Definition zero : t := S754_zero false.
Definition Inf (sign : Z) : t := S754_infinity (bool_decide (sign < 0)%Z).

(** [x + y], [x * y], [x / y], [x < y], [x <= y] *)
Definition add (x y : t) : t := SFadd prec emax x y.
Definition mul (x y : t) : t := SFmul prec emax x y.
Definition div (x y : t) : t := SFdiv prec emax x y.
Definition ltb (x y : t) : bool := SFltb x y.
Definition leb (x y : t) : bool := SFleb x y.

Definition is_nan (x : t) : bool :=
  match x with
  | S754_nan => true
  | _ => false
  end.

(** [float64(n)] for an integer [n], and an integer constant used as a
    [float64]: the nearest binary64. *)
Definition of_int (n : Z) : t := binary_normalize prec emax n 0 false.

(** [math.Ceil(x)].  A number with [e >= 0] is an integer; otherwise
    [|x| < 2^53] and the least integer above is a binary64.
    [Ceil] keeps the sign of a result that is zero. *)
Definition Ceil (x : t) : t :=
  match x with
  | S754_finite s m e =>
      if bool_decide (0 ≤ e)%Z then x
      else
        let c := (- (- cond_Zopp s (Z.pos m) / 2 ^ (- e)))%Z in
        if bool_decide (c = 0%Z) then S754_zero s else of_int c
  | _ => x
  end.

(** [int(x)]: the fraction is discarded.  For a value that [int] (64 bits)
    cannot represent, and for an infinity or NaN, the language leaves the
    result to the implementation; [-2^63] is what amd64 yields. *)
Definition to_int (x : t) : Z :=
  match x with
  | S754_zero _ => 0%Z
  | S754_finite s m e =>
      let q := if bool_decide (0 ≤ e)%Z then (Z.pos m * 2 ^ e)%Z
               else (Z.pos m / 2 ^ (- e))%Z in
      let z := cond_Zopp s q in
      if bool_decide (- 2 ^ 63 ≤ z < 2 ^ 63)%Z then z else (- 2 ^ 63)%Z
  | _ => (- 2 ^ 63)%Z
  end.
End F64.

(** ** The [float64] arithmetic of maths-stats-v3.go

    The statements of [maths-stats-v3.go] that compute with [float64], in
    binary64: the aggregate fields with the statements of [AddNumber] that
    update them, the three queries that read them, and [GetPercentile]
    with its rank arithmetic.  The statements of part_001 are the same. *)

Module V3_float64.

(** The fields [totalSum], [count], [minVal] and [maxVal] of
    [DataStreamStats]. *)
Record Aggregate : Type := mkAggregate {
  totalSum : F64.t;
  count : Z;
  minVal : F64.t;
  maxVal : F64.t
}.

(** These fields in [NewDataStreamStats(capacity)]. *)
Definition NewAggregate : Aggregate :=
  {| totalSum := F64.zero;
     count := 0;
     minVal := F64.Inf 1;
     maxVal := F64.Inf (-1) |}.

(** [ds.AddNumber(num)], the statements under "Update basic stats"
    (lines 84 to 91).  The rest of [AddNumber] does not read or write
    these fields. *)
Definition AddNumber_stats (num : F64.t) : M Aggregate () :=
  modify (λ a, mkAggregate (F64.add (totalSum a) num) (count a) (minVal a)
                 (maxVal a));;
  modify (λ a, mkAggregate (totalSum a) (wrap64 (count a + 1)) (minVal a)
                 (maxVal a));;
  modify (λ a, if F64.ltb num (minVal a)
               then mkAggregate (totalSum a) (count a) num (maxVal a)
               else a);;
  modify (λ a, if F64.ltb (maxVal a) num
               then mkAggregate (totalSum a) (count a) (minVal a) num
               else a).

(** [ds.GetMean()] *)
Definition GetMean : M Aggregate F64.t :=
  a ← get;
  if bool_decide (count a = 0%Z) then mret F64.zero
  else mret (F64.div (totalSum a) (F64.of_int (count a))).

(** [ds.GetMin()] and [ds.GetMax()] *)
Definition GetMin : M Aggregate F64.t := a ← get; mret (minVal a).
Definition GetMax : M Aggregate F64.t := a ← get; mret (maxVal a).

(** One [AddNumber] per value. *)
Fixpoint feed (l : list F64.t) : M Aggregate () :=
  match l with
  | [] => mret ()
  | x :: l => AddNumber_stats x;; feed l
  end.

(** [index := int(math.Ceil((p / 100) * float64(n))) - 1] and
    [if index < 0 { index = 0 }]: the quotient, the product and [Ceil] in
    binary64, the subtraction in [int] (64 bits, wrapping). *)
Definition percentile_index (p : F64.t) (n : nat) : Z :=
  let index :=
    wrap64 (F64.to_int
              (F64.Ceil (F64.mul (F64.div p (F64.of_int 100))
                           (F64.of_int (Z.of_nat n)))) - 1) in
  if bool_decide (index < 0)%Z then 0%Z else index.

(** [sorted[index]] for an [int] index: out of range unless
    [0 <= index < len(sorted)]. *)
Definition index_int {A} (sorted : list A) (index : Z) : option A :=
  if bool_decide (0 ≤ index < Z.of_nat (length sorted))%Z
  then sorted !! Z.to_nat index
  else None.

(** [ds.GetPercentile(p)] on the engine of [V3]: the window holds the
    values, the rank [p] is a binary64. *)
Definition GetPercentile (p : F64.t) : M V3.DataStreamStats Qc :=
  sorted ← V3.on_recentData V3.RingBuffer.GetSorted;
  if bool_decide (length sorted = 0) then mret 0%Qc
  else
    let index := percentile_index p (length sorted) in
    lift (index_int sorted index).
End V3_float64.

(** ** Goroutines and mutexes

    A method is its [Lock] and [Unlock] calls and, between them, its
    critical sections, in program order; a deferred [Unlock] comes last.
    A step [Run] is a block of statements that runs without interruption,
    a whole critical section or a part of one, so that the interleavings
    of this model are among those of the program. *)

Module Locks.
Section locks.
Context {Mutex St : Type} `{!EqDecision Mutex}.

Inductive instr : Type :=
  | Lock (m : Mutex)
  | Unlock (m : Mutex)
  | Run {A : Type} (body : M St A).

(** The mutexes that are locked, the engine, and what is left to run of
    each goroutine. *)
Record config : Type := mkConfig {
  held : list Mutex;
  store : St;
  threads : list (list instr)
}.

Inductive outcome : Type :=
  | Next (c : config)
  | Blocked
  | Crash.

(** One step of goroutine [i].  [Lock] on a locked mutex blocks; [Unlock]
    of an unlocked mutex is a fatal error; a panic in a critical section
    is not recovered and ends the program. *)
Definition step (i : nat) (c : config) : outcome :=
  match threads c !! i with
  | None | Some [] => Blocked
  | Some (Lock m :: rest) =>
      if bool_decide (m ∈ held c) then Blocked
      else Next (mkConfig (m :: held c) (store c) (<[i := rest]> (threads c)))
  | Some (Unlock m :: rest) =>
      if bool_decide (m ∈ held c)
      then Next (mkConfig (filter (λ m', m' ≠ m) (held c)) (store c)
                   (<[i := rest]> (threads c)))
      else Crash
  | Some (Run body :: rest) =>
      match body (store c) with
      | Ok _ s => Next (mkConfig (held c) s (<[i := rest]> (threads c)))
      | Panic => Crash
      end
  end.

(** A schedule names the goroutine that takes each step. *)
Fixpoint run (sched : list nat) (c : config) : outcome :=
  match sched with
  | [] => Next c
  | i :: sched =>
      match step i c with
      | Next c' => run sched c'
      | o => o
      end
  end.

(** A goroutine on its own: its critical sections in program order. *)
Fixpoint alone (prog : list instr) : M St () :=
  match prog with
  | [] => mret ()
  | Run body :: prog => body;; alone prog
  | _ :: prog => alone prog
  end.
End locks.
Global Arguments instr : clear implicits.
Global Arguments config : clear implicits.
Global Arguments outcome : clear implicits.
End Locks.

(** *** The four mutexes of maths-stats-v3.go *)

Module V3_locks.
Inductive Mutex : Type :=
  | minMaxLock
  | heapLock
  | percentileLock
  | cachedLock.

Global Instance Mutex_eq_dec : EqDecision Mutex.
Proof. solve_decision. Defined.

(** [AddNumber], lines 84 to 91: between [minMaxLock.Lock()] and
    [heapLock.Lock()]. *)
Definition AddNumber_stats (num : Qc) : M V3.DataStreamStats () :=
  modify (λ ds, V3.set_totalSum (V3.totalSum ds + num)%Qc ds);;
  modify (λ ds, V3.set_count (wrap64 (V3.count ds + 1)) ds);;
  modify (λ ds, if xltb (Fin num) (V3.minVal ds)
                then V3.set_minVal (Fin num) ds else ds);;
  modify (λ ds, if xltb (V3.maxVal ds) (Fin num)
                then V3.set_maxVal (Fin num) ds else ds).

(** [AddNumber], lines 95 to 102: between [heapLock.Lock()] and
    [heapLock.Unlock()]. *)
Definition AddNumber_heaps (num : Qc) : M V3.DataStreamStats () :=
  ds ← get;
  to_lower ←
    (if bool_decide (length (V3.lower ds) = 0) then mret true
     else top ← lift (heap.Peek (V3.lower ds));
          mret (bool_decide (num ≤ top)%Qc));
  (if to_lower : bool then
     modify (λ ds, V3.set_lower (heap.Push MaxHeap_less (V3.lower ds) num) ds);;
     modify (λ ds, V3.set_balanceCounter (V3.balanceCounter ds + 1) ds)
   else
     modify (λ ds, V3.set_upper (heap.Push MinHeap_less (V3.upper ds) num) ds);;
     modify (λ ds, V3.set_balanceCounter (V3.balanceCounter ds - 1) ds));;
  V3.balanceHeaps.

(** [ds.AddNumber(num)]: [minMaxLock] is held to the end by the deferred
    [Unlock]; the other three are taken and released in turn. *)
Definition AddNumber (num : Qc) : list (Locks.instr Mutex V3.DataStreamStats) :=
  [Locks.Lock minMaxLock;
   Locks.Run (AddNumber_stats num);
   Locks.Lock heapLock;
   Locks.Run (AddNumber_heaps num);
   Locks.Unlock heapLock;
   Locks.Lock percentileLock;
   Locks.Run (V3.on_recentData (V3.RingBuffer.Add num));
   Locks.Unlock percentileLock;
   Locks.Lock cachedLock;
   Locks.Run (modify (V3.set_cacheUpdated false));
   Locks.Unlock cachedLock;
   Locks.Unlock minMaxLock].

(** The queries: [GetMean], [GetMin] and [GetMax] take [minMaxLock],
    [GetMedian] takes [heapLock], [GetPercentile] takes [percentileLock]. *)
Definition GetMean : list (Locks.instr Mutex V3.DataStreamStats) :=
  [Locks.Lock minMaxLock; Locks.Run V3.GetMean; Locks.Unlock minMaxLock].
Definition GetMedian : list (Locks.instr Mutex V3.DataStreamStats) :=
  [Locks.Lock heapLock; Locks.Run V3.GetMedian; Locks.Unlock heapLock].
Definition GetMin : list (Locks.instr Mutex V3.DataStreamStats) :=
  [Locks.Lock minMaxLock; Locks.Run V3.GetMin; Locks.Unlock minMaxLock].
Definition GetMax : list (Locks.instr Mutex V3.DataStreamStats) :=
  [Locks.Lock minMaxLock; Locks.Run V3.GetMax; Locks.Unlock minMaxLock].
Definition GetPercentile (p : Qc)
  : list (Locks.instr Mutex V3.DataStreamStats) :=
  [Locks.Lock percentileLock; Locks.Run (V3.GetPercentile p);
   Locks.Unlock percentileLock].
End V3_locks.

(** *** The mutex of part_001 *)

Module Part001_locks.
Inductive Mutex : Type := mu.

Global Instance Mutex_eq_dec : EqDecision Mutex.
Proof. solve_decision. Defined.

(** Every method of part_001 is [ds.mu.Lock()], [defer ds.mu.Unlock()] and
    its body. *)
Definition method {A} (body : M Part001.DataStreamStats A)
  : list (Locks.instr Mutex Part001.DataStreamStats) :=
  [Locks.Lock mu; Locks.Run body; Locks.Unlock mu].

(** The body of [AddNumber] in three steps: lines 39 to 46, lines 49 to
    60, and lines 63 to 64. *)
Definition AddNumber_stats (num : Qc) : M Part001.DataStreamStats () :=
  modify (λ ds, Part001.set_totalSum (Part001.totalSum ds + num)%Qc ds);;
  modify (λ ds, Part001.set_count (wrap64 (Part001.count ds + 1)) ds);;
  modify (λ ds, if xltb (Fin num) (Part001.minVal ds)
                then Part001.set_minVal (Fin num) ds else ds);;
  modify (λ ds, if xltb (Part001.maxVal ds) (Fin num)
                then Part001.set_maxVal (Fin num) ds else ds).

Definition AddNumber_heaps (num : Qc) : M Part001.DataStreamStats () :=
  ds ← get;
  to_lower ←
    (if bool_decide (length (Part001.lower ds) = 0) then mret true
     else top ← lift (heap.Peek (Part001.lower ds));
          mret (bool_decide (num ≤ top)%Qc));
  (if to_lower : bool then
     modify (λ ds, Part001.set_lower
                     (heap.Push MaxHeap_less (Part001.lower ds) num) ds)
   else
     modify (λ ds, Part001.set_upper
                     (heap.Push MinHeap_less (Part001.upper ds) num) ds));;
  ds ← get;
  (if bool_decide (length (Part001.upper ds) + 1 < length (Part001.lower ds))
   then
     '(x, lower') ← lift (heap.Pop MaxHeap_less (Part001.lower ds));
     modify (Part001.set_lower lower');;
     modify (λ ds, Part001.set_upper
                     (heap.Push MinHeap_less (Part001.upper ds) x) ds)
   else if bool_decide (length (Part001.lower ds) < length (Part001.upper ds))
   then
     '(x, upper') ← lift (heap.Pop MinHeap_less (Part001.upper ds));
     modify (Part001.set_upper upper');;
     modify (λ ds, Part001.set_lower
                     (heap.Push MaxHeap_less (Part001.lower ds) x) ds)
   else mret ()).

Definition AddNumber_sorted (num : Qc) : M Part001.DataStreamStats () :=
  ds ← get;
  let idx := sort_SearchFloat64s (Part001.sorted ds) num in
  modify (Part001.set_sorted
            (take idx (Part001.sorted ds) ++ [num] ++
             drop idx (Part001.sorted ds))).

Definition AddNumber (num : Qc)
  : list (Locks.instr Mutex Part001.DataStreamStats) :=
  [Locks.Lock mu;
   Locks.Run (AddNumber_stats num);
   Locks.Run (AddNumber_heaps num);
   Locks.Run (AddNumber_sorted num);
   Locks.Unlock mu].

Definition GetMean : list (Locks.instr Mutex Part001.DataStreamStats) :=
  method Part001.GetMean.
Definition GetMedian : list (Locks.instr Mutex Part001.DataStreamStats) :=
  method Part001.GetMedian.
Definition GetMin : list (Locks.instr Mutex Part001.DataStreamStats) :=
  method Part001.GetMin.
Definition GetMax : list (Locks.instr Mutex Part001.DataStreamStats) :=
  method Part001.GetMax.
Definition GetPercentile (p : Qc)
  : list (Locks.instr Mutex Part001.DataStreamStats) :=
  method (Part001.GetPercentile p).
End Part001_locks.

(** ** Reference notions the properties are stated with *)

(** Observations given by integers, for the concrete runs. *)
Definition obs (l : list Z) : list Qc := Qc_of_Z <$> l.

(** The median by full sort: the middle element for an odd count, the
    average of the two middle elements for an even count, 0 for no data. *)
Definition true_median (l : list Qc) : Qc :=
  let s := sort_Float64s l in
  let n := length l in
  if bool_decide (n = 0) then 0%Qc
  else if Nat.odd n then s !!! (n / 2)
  else
    let a := s !!! (n / 2 - 1) in
    let b := s !!! (n / 2) in
    ((a + b) / Qc_of_Z 2)%Qc.

(** The sum of a list of observations. *)
Definition sum_list (l : list Qc) : Qc := foldr Qcplus 0%Qc l.

(** The [k] most recent values of a history, oldest first. *)
Definition most_recent (k : nat) (l : list Qc) : list Qc :=
  drop (length l - k) l.

(** A slice is heap-ordered for [less] when no element is [less] than its
    parent; [heap_ordered_upto n] restricts this to the first [n] slots. *)
Definition heap_ordered_upto (less : Qc → Qc → bool) (n : nat) (h : list Qc)
  : Prop :=
  ∀ k, 0 < k < n → less (h !!! k) (h !!! ((k - 1) / 2)) = false.

Definition heap_ordered (less : Qc → Qc → bool) (h : list Qc) : Prop :=
  heap_ordered_upto less (length h) h.

(** ** The phases of [AddNumber] in isolation

    The lemmas on the two heaps and on the ring buffer are stated on these
    functions; [V3_AddNumber_phases] and [Part001_AddNumber_phases] show
    that [AddNumber] is their composition. *)

(** Insertion into one of the two heaps; the boolean tells whether the value
    went to [lower]. *)
Definition heaps_insert (num : Qc) (lo up : list Qc)
  : list Qc * list Qc * bool :=
  match heap.Peek lo with
  | None => (heap.Push MaxHeap_less lo num, up, true)
  | Some top =>
      if bool_decide (num ≤ top)%Qc
      then (heap.Push MaxHeap_less lo num, up, true)
      else (lo, heap.Push MinHeap_less up num, false)
  end.

(** [heap.Push(&ds.upper, heap.Pop(&ds.lower))] *)
Definition move_to_upper (lo up : list Qc) : option (list Qc * list Qc) :=
  '(x, lo') ← heap.Pop MaxHeap_less lo;
  Some (lo', heap.Push MinHeap_less up x).

(** [heap.Push(&ds.lower, heap.Pop(&ds.upper))] *)
Definition move_to_lower (lo up : list Qc) : option (list Qc * list Qc) :=
  '(x, up') ← heap.Pop MinHeap_less up;
  Some (heap.Push MaxHeap_less lo x, up').

(** The heap phase of [V3.AddNumber], with the balance counter. *)
Definition V3_heaps (num : Qc) (lo up : list Qc) (bc : Z)
  : option (list Qc * list Qc * Z) :=
  let '(lo1, up1, to_lower) := heaps_insert num lo up in
  let bc1 := if to_lower then (bc + 1)%Z else (bc - 1)%Z in
  if bool_decide (1 < bc1)%Z then
    '(lo2, up2) ← move_to_upper lo1 up1; Some (lo2, up2, (bc1 - 1)%Z)
  else if bool_decide (bc1 < -1)%Z then
    '(lo2, up2) ← move_to_lower lo1 up1; Some (lo2, up2, (bc1 + 1)%Z)
  else Some (lo1, up1, bc1).

(** The heap phase of [Part001.AddNumber], by comparison of the sizes. *)
Definition Part001_heaps (num : Qc) (lo up : list Qc)
  : option (list Qc * list Qc) :=
  let '(lo1, up1, _) := heaps_insert num lo up in
  if bool_decide (length up1 + 1 < length lo1) then move_to_upper lo1 up1
  else if bool_decide (length lo1 < length up1) then move_to_lower lo1 up1
  else Some (lo1, up1).

(** The running aggregate after one more observation. *)
Definition min_step (num : Qc) (m : xfloat) : xfloat :=
  if xltb (Fin num) m then Fin num else m.
Definition max_step (num : Qc) (m : xfloat) : xfloat :=
  if xltb m (Fin num) then Fin num else m.

(** The two heaps partition the values: both are heap-ordered and nothing in
    [lower] exceeds anything in [upper]. *)
Definition heaps_inv (lo up : list Qc) : Prop :=
  heap_ordered MaxHeap_less lo ∧ heap_ordered MinHeap_less up ∧
  ∀ a b, a ∈ lo → b ∈ up → (a ≤ b)%Qc.

(** The content of the ring buffer, oldest value first. *)
Definition ring_window (rb : V3.RingBuffer.t) : list Qc :=
  if bool_decide (V3.RingBuffer.size rb < V3.RingBuffer.cap rb)
  then take (V3.RingBuffer.size rb) (V3.RingBuffer.data rb)
  else drop (V3.RingBuffer.head rb) (V3.RingBuffer.data rb) ++
       take (V3.RingBuffer.head rb) (V3.RingBuffer.data rb).

(** The ring buffer of capacity [c] after the history [hist]. *)
Definition ring_inv (c : nat) (hist : list Qc) (rb : V3.RingBuffer.t) : Prop :=
  0 < c ∧ V3.RingBuffer.cap rb = c ∧ length (V3.RingBuffer.data rb) = c ∧
  V3.RingBuffer.size rb = length hist `min` c ∧
  V3.RingBuffer.head rb = length hist `mod` c ∧
  ring_window rb = most_recent (length hist `min` c) hist.

(** [m] is the smallest ([min_inv]) or largest ([max_inv]) value of [hist],
    or the sentinel when [hist] is empty. *)
Definition min_inv (hist : list Qc) (m : xfloat) : Prop :=
  match m with
  | PosInf => hist = []
  | Fin q => q ∈ hist ∧ ∀ x, x ∈ hist → (q ≤ x)%Qc
  | NegInf => False
  end.

Definition max_inv (hist : list Qc) (m : xfloat) : Prop :=
  match m with
  | NegInf => hist = []
  | Fin q => q ∈ hist ∧ ∀ x, x ∈ hist → (x ≤ q)%Qc
  | PosInf => False
  end.

(** The state of a [V3] engine of capacity [c] after the history [hist]. *)
Definition V3_inv (c : nat) (hist : list Qc) (ds : V3.DataStreamStats)
  : Prop :=
  V3.totalSum ds = sum_list hist ∧
  V3.count ds = wrap64 (Z.of_nat (length hist)) ∧
  min_inv hist (V3.minVal ds) ∧ max_inv hist (V3.maxVal ds) ∧
  heaps_inv (V3.lower ds) (V3.upper ds) ∧
  (V3.lower ds = [] → V3.upper ds = [] ∧ V3.balanceCounter ds = 0%Z) ∧
  (-1 ≤ V3.balanceCounter ds ≤ 1)%Z ∧
  V3.lower ds ++ V3.upper ds ≡ₚ hist ∧
  ring_inv c hist (V3.recentData ds) ∧
  V3.percentile (V3.cached ds) = None ∧
  V3.cacheUpdated ds = false.

(** The state of a [Part001] engine after the history [hist]. *)
Definition Part001_inv (hist : list Qc) (ds : Part001.DataStreamStats)
  : Prop :=
  Part001.totalSum ds = sum_list hist ∧
  Part001.count ds = wrap64 (Z.of_nat (length hist)) ∧
  min_inv hist (Part001.minVal ds) ∧ max_inv hist (Part001.maxVal ds) ∧
  heaps_inv (Part001.lower ds) (Part001.upper ds) ∧
  length (Part001.upper ds) ≤ length (Part001.lower ds)
    ≤ length (Part001.upper ds) + 1 ∧
  Part001.lower ds ++ Part001.upper ds ≡ₚ hist ∧
  Part001.sorted ds = sort_Float64s hist.

(** The sum the code accumulates: from the left, every addition rounded. *)
Definition float64_sum (l : list F64.t) : F64.t := foldl F64.add F64.zero l.

(** [m] is the smallest ([min64_inv]) or largest ([max64_inv]) of the
    values of [hist] that are not NaN, or the sentinel when there is none.
    A NaN compares false with everything and never becomes an extremum. *)
Definition min64_inv (hist : list F64.t) (m : F64.t) : Prop :=
  (m = F64.Inf 1 ∨ m ∈ hist) ∧ F64.is_nan m = false ∧
  ∀ x, x ∈ hist → F64.is_nan x = false → F64.leb m x = true.

Definition max64_inv (hist : list F64.t) (m : F64.t) : Prop :=
  (m = F64.Inf (-1) ∨ m ∈ hist) ∧ F64.is_nan m = false ∧
  ∀ x, x ∈ hist → F64.is_nan x = false → F64.leb x m = true.

(** The aggregate fields after the history [hist]. *)
Definition Aggregate_inv (hist : list F64.t) (a : V3_float64.Aggregate)
  : Prop :=
  V3_float64.totalSum a = float64_sum hist ∧
  V3_float64.count a = wrap64 (Z.of_nat (length hist)) ∧
  min64_inv hist (V3_float64.minVal a) ∧
  max64_inv hist (V3_float64.maxVal a).

(** The configurations that a goroutine in [AddNumber] and a goroutine in
    another method [body] of part_001 reach from the engine [ds0]: [i] and
    [j] count the steps each has taken, at most one of them is between its
    [Lock] and its [Unlock], and the engine is what the steps of
    [AddNumber] taken so far make of [ds0]. *)
Definition Part001_reached {A} (num : Qc) (body : M Part001.DataStreamStats A)
    (ds0 : Part001.DataStreamStats)
    (cfg : Locks.config Part001_locks.Mutex Part001.DataStreamStats) : Prop :=
  ∃ i j,
    Locks.threads cfg = [drop i (Part001_locks.AddNumber num);
                         drop j (Part001_locks.method body)] ∧
    i ≤ 5 ∧ j ≤ 3 ∧ ¬ (1 ≤ i ≤ 4 ∧ 1 ≤ j ≤ 2) ∧
    Locks.held cfg
    = (if bool_decide (1 ≤ i ≤ 4 ∨ 1 ≤ j ≤ 2) then [Part001_locks.mu]
       else []) ∧
    Locks.alone (take i (Part001_locks.AddNumber num)) ds0
    = Ok () (Locks.store cfg).

(** A computation that leaves the state [s] as it found it, if it returns. *)
Definition preserves {St A} (r : Result St A) (s : St) : Prop :=
  match r with
  | Ok _ s' => s' = s
  | Panic => True
  end.

(** The engine of the worked example: capacity 3 after 5, 1, 9, 2. *)
Definition example_engine : V3.DataStreamStats :=
  default (V3.NewDataStreamStats 3)
    (state (V3.feed (obs [5; 1; 9; 2]%Z) (V3.NewDataStreamStats 3))).

(** The sizes of the two heaps of an engine state. *)
Definition V3_heap_sizes (ds : V3.DataStreamStats) : nat * nat :=
  (length (V3.lower ds), length (V3.upper ds)).
Definition Part001_heap_sizes (ds : Part001.DataStreamStats) : nat * nat :=
  (length (Part001.lower ds), length (Part001.upper ds)).

(** * Properties *)

(** [lia] on [/ 2] and on [mod] by a constant. *)
Ltac Zify.zify_post_hook ::= Z.to_euclidean_division_equations.

(** ** container/heap *)

Section heap_theory.
Variable less : Qc → Qc → bool.
Hypothesis less_asym : ∀ a b, less a b = true → less b a = false.
Hypothesis nless_trans :
  ∀ a b c, less b a = false → less c b = false → less c a = false.

Lemma less_irrefl a : less a a = false.
Proof.
  destruct (less a a) eqn:E; [|done].
  pose proof (less_asym _ _ E). congruence.
Qed.

Lemma length_Swap h i j : length (heap.Swap h i j) = length h.
Proof. unfold heap.Swap. by rewrite !length_insert. Qed.

Lemma Swap_lookup h i j k :
  i < length h → j < length h →
  heap.Swap h i j !!! k =
    if decide (k = j) then h !!! i
    else if decide (k = i) then h !!! j else h !!! k.
Proof.
  intros Hi Hj. unfold heap.Swap.
  destruct (decide (k = j)) as [->|Hkj].
  - rewrite list_lookup_total_insert_eq; [done|by rewrite length_insert].
  - rewrite list_lookup_total_insert_ne by done.
    destruct (decide (k = i)) as [->|Hki].
    + by rewrite list_lookup_total_insert_eq.
    + by rewrite list_lookup_total_insert_ne.
Qed.

Lemma Swap_Permutation h i j :
  i < length h → j < length h → heap.Swap h i j ≡ₚ h.
Proof.
  intros Hi Hj. unfold heap.Swap.
  apply Permutation_insert_swap; by apply list_lookup_lookup_total_lt.
Qed.

(** [up] restores the heap order when the only violation is between [j]
    and its parent. *)
Lemma up_spec fuel : ∀ h j,
  j < fuel → j < length h →
  (∀ k, 0 < k < length h → k ≠ j →
        less (h !!! k) (h !!! ((k - 1) / 2)) = false) →
  (∀ k, 0 < k < length h → (k - 1) / 2 = j → 0 < j →
        less (h !!! k) (h !!! ((j - 1) / 2)) = false) →
  heap_ordered less (heap.up less fuel h j) ∧ heap.up less fuel h j ≡ₚ h.
Proof.
  induction fuel as [|fuel IH]; intros h j Hfuel Hj Hout Hgrand; [lia|].
  cbn [heap.up]. case_bool_decide as Hroot; cbn [orb negb].
  { split; [|done]. intros k Hk.
    destruct (decide (k = j)) as [->|]; [lia|by apply Hout]. }
  unfold heap.Less.
  destruct (less (h !!! j) (h !!! ((j - 1) / 2))) eqn:Hless; cbn [negb].
  2:{ split; [|done]. intros k Hk.
      destruct (decide (k = j)) as [->|]; [done|by apply Hout]. }
  assert (Hij : (j - 1) / 2 < j) by lia.
  set (i := (j - 1) / 2) in *.
  destruct (IH (heap.Swap h i j) i) as [Hord Hperm].
  - lia.
  - rewrite length_Swap. lia.
  - rewrite length_Swap. intros k Hk Hki.
    rewrite !Swap_lookup by lia.
    destruct (decide (k = j)) as [->|Hkj].
    + fold i. rewrite (decide_False (P := i = j)) by lia.
      rewrite decide_True by done. by apply less_asym.
    + rewrite (decide_False (P := k = i)) by done.
      destruct (decide ((k - 1) / 2 = j)) as [Hpj|Hpj].
      * apply Hgrand; [done|done|lia].
      * destruct (decide ((k - 1) / 2 = i)) as [Hpi|Hpi].
        -- apply nless_trans with (h !!! i).
           ++ by apply less_asym.
           ++ rewrite <-Hpi. by apply Hout.
        -- by apply Hout.
  - rewrite length_Swap. intros k Hk Hpk Hi.
    rewrite !Swap_lookup by lia.
    assert (Hpi : (i - 1) / 2 < i) by lia.
    rewrite (decide_False (P := (i - 1) / 2 = j)) by lia.
    rewrite (decide_False (P := (i - 1) / 2 = i)) by lia.
    assert (Hii : less (h !!! i) (h !!! ((i - 1) / 2)) = false)
      by (apply Hout; lia).
    destruct (decide (k = j)) as [->|Hkj]; [done|].
    rewrite (decide_False (P := k = i)) by lia.
    apply nless_trans with (h !!! i); [done|].
    rewrite <-Hpk. by apply Hout.
  - split; [done|].
    rewrite Hperm. apply Swap_Permutation; lia.
Qed.
(** [down] restores the heap order of the first [n] slots when the only
    violations are between [i] and its children; it leaves the slots from
    [n] on alone. *)
Lemma down_spec fuel : ∀ h i n,
  n ≤ length h → n ≤ i + fuel →
  (∀ k, 0 < k < n → (k - 1) / 2 ≠ i →
        less (h !!! k) (h !!! ((k - 1) / 2)) = false) →
  (∀ k, 0 < k < n → (k - 1) / 2 = i → 0 < i →
        less (h !!! k) (h !!! ((i - 1) / 2)) = false) →
  heap_ordered_upto less n (heap.down less fuel h i n) ∧
  heap.down less fuel h i n ≡ₚ h ∧
  length (heap.down less fuel h i n) = length h ∧
  ∀ k, n ≤ k → heap.down less fuel h i n !!! k = h !!! k.
Proof.
  induction fuel as [|fuel IH]; intros h i n Hn Hfuel Hout Hgrand.
  { cbn [heap.down]. split_and!; [|done..].
    intros k Hk. apply Hout; lia. }
  cbn [heap.down]. case_bool_decide as Hleaf.
  { split_and!; [|done..]. intros k Hk. apply Hout; lia. }
  set (j1 := 2 * i + 1) in *.
  set (j := if bool_decide (j1 + 1 < n) && heap.Less less h (j1 + 1) j1
            then j1 + 1 else j1).
  assert ((j = j1 ∨ j = j1 + 1) ∧ j < n ∧
               ∀ k, 0 < k < n → (k - 1) / 2 = i →
                    less (h !!! k) (h !!! j) = false) as (Hjj & Hjn & Hbest).
  { subst j. unfold heap.Less. case_bool_decide as Hj2; cbn [andb].
    - destruct (less (h !!! (j1 + 1)) (h !!! j1)) eqn:Hl.
      + split_and!; [by right|done|]. intros k Hk Hp.
        assert (k = j1 ∨ k = j1 + 1) as [->| ->] by lia.
        * by apply less_asym.
        * apply less_irrefl.
      + split_and!; [by left|lia|]. intros k Hk Hp.
        assert (k = j1 ∨ k = j1 + 1) as [->| ->] by lia.
        * apply less_irrefl.
        * done.
    - split_and!; [by left|lia|]. intros k Hk Hp.
      assert (k = j1) as -> by lia. apply less_irrefl. }
  clearbody j. unfold heap.Less.
  destruct (less (h !!! j) (h !!! i)) eqn:Hless; cbn [negb].
  2:{ split_and!; [|done..]. intros k Hk.
      destruct (decide ((k - 1) / 2 = i)) as [Hp|Hp]; [|by apply Hout].
      rewrite Hp. apply nless_trans with (h !!! j); [done|by apply Hbest]. }
  destruct (IH (heap.Swap h i j) j n) as (Hord & Hperm & Hlen & Hrest).
  - rewrite length_Swap. lia.
  - lia.
  - intros k Hk Hpk. rewrite !Swap_lookup by lia.
    destruct (decide (k = j)) as [->|Hkj].
    + rewrite (decide_False (P := (j - 1) / 2 = j)) by lia.
      rewrite decide_True by lia. by apply less_asym.
    + destruct (decide (k = i)) as [->|Hki].
      * rewrite (decide_False (P := (i - 1) / 2 = j)) by lia.
        rewrite (decide_False (P := (i - 1) / 2 = i)) by lia.
        apply Hgrand; lia.
      * rewrite (decide_False (P := (k - 1) / 2 = j)) by lia.
        destruct (decide ((k - 1) / 2 = i)) as [Hp|Hp].
        -- by apply Hbest.
        -- by apply Hout.
  - intros k Hk Hpk Hj0. rewrite !Swap_lookup by lia.
    rewrite (decide_False (P := k = j)) by lia.
    rewrite (decide_False (P := k = i)) by lia.
    rewrite (decide_False (P := (j - 1) / 2 = j)) by lia.
    rewrite decide_True by lia.
    rewrite <-Hpk. apply Hout; lia.
  - split_and!.
    + done.
    + rewrite Hperm. apply Swap_Permutation; lia.
    + by rewrite Hlen, length_Swap.
    + intros k Hk. rewrite Hrest by done. rewrite Swap_lookup by lia.
      rewrite (decide_False (P := k = j)) by lia.
      by rewrite (decide_False (P := k = i)) by lia.
Qed.

(** In a heap-ordered slice no element is [less] than the root. *)
Lemma heap_ordered_root h k :
  heap_ordered less h → k < length h → less (h !!! k) (h !!! 0) = false.
Proof.
  intros Hh. induction (lt_wf k) as [k _ IH]. intros Hk.
  destruct (decide (k = 0)) as [->|Hk0]; [apply less_irrefl|].
  apply nless_trans with (h !!! ((k - 1) / 2)).
  - apply IH; lia.
  - apply Hh. lia.
Qed.

Lemma heap_ordered_nil : heap_ordered less [].
Proof. intros k Hk. simpl in Hk. lia. Qed.

(** [heap.Push] keeps the heap order and adds exactly [x]. *)
Lemma Push_spec h x :
  heap_ordered less h →
  heap_ordered less (heap.Push less h x) ∧ heap.Push less h x ≡ₚ x :: h.
Proof.
  intros Hh. unfold heap.Push.
  destruct (up_spec (length (h ++ [x])) (h ++ [x]) (length (h ++ [x]) - 1))
    as [Hord Hperm].
  - rewrite length_app; cbn [length]. lia.
  - rewrite length_app; cbn [length]. lia.
  - rewrite length_app; cbn [length]. intros k Hk Hne.
    rewrite !lookup_total_app_l by lia. apply Hh. lia.
  - rewrite length_app; cbn [length]. intros k Hk Hp _. lia.
  - split; [done|]. rewrite Hperm. by rewrite Permutation_app_comm.
Qed.

(** [heap.Pop] on a non-empty heap-ordered slice returns the root, keeps
    the heap order of the rest and removes exactly the root. *)
Lemma Pop_spec h :
  heap_ordered less h → h ≠ [] →
  ∃ x h', heap.Pop less h = Some (x, h') ∧ h !! 0 = Some x ∧
          heap_ordered less h' ∧ h ≡ₚ x :: h'.
Proof.
  intros Hh Hne. unfold heap.Pop.
  destruct (length h) as [|n] eqn:Hlen.
  { by destruct h. }
  destruct (down_spec (S n) (heap.Swap h 0 n) 0 n)
    as (Hord & Hperm & Hlen' & Hrest).
  - rewrite length_Swap. lia.
  - lia.
  - intros k Hk Hp. rewrite !Swap_lookup by lia.
    rewrite (decide_False (P := k = n)) by lia.
    rewrite (decide_False (P := k = 0)) by lia.
    rewrite (decide_False (P := (k - 1) / 2 = n)) by lia.
    rewrite (decide_False (P := (k - 1) / 2 = 0)) by lia.
    apply Hh. lia.
  - intros; lia.
  - rewrite length_Swap in Hlen'.
    set (h2 := heap.down less (S n) (heap.Swap h 0 n) 0 n) in *.
    assert (Hx : h2 !!! n = h !!! 0).
    { rewrite Hrest by done. rewrite Swap_lookup by lia.
      by rewrite decide_True. }
    rewrite (list_lookup_lookup_total_lt h2 n) by lia. simpl.
    exists (h2 !!! n), (take n h2). split_and!.
    + done.
    + rewrite Hx. apply list_lookup_lookup_total_lt. lia.
    + intros k Hk. rewrite length_take in Hk.
      rewrite !lookup_total_take_lt by lia. apply Hord. lia.
    + rewrite <-(Swap_Permutation h 0 n) by lia. rewrite <-Hperm.
      rewrite <-(take_drop n h2) at 1.
      rewrite (drop_S h2 (h2 !!! n) n)
        by (apply list_lookup_lookup_total_lt; lia).
      rewrite drop_ge by lia.
      by rewrite Permutation_app_comm.
Qed.
(** The loops of [up] and [down] end within the fuel [heap.Push] and
    [heap.Pop] give them: more fuel does not change the result. *)
Lemma up_fuel fuel : ∀ fuel' h j,
  j < fuel → j < fuel' → heap.up less fuel h j = heap.up less fuel' h j.
Proof.
  induction fuel as [|fuel IH]; intros fuel' h j Hf Hf'; [lia|].
  destruct fuel' as [|fuel']; [lia|]. cbn [heap.up].
  case_bool_decide as Hroot; [done|]. cbn [orb].
  destruct (negb _); [done|]. apply IH; lia.
Qed.

Lemma down_fuel fuel : ∀ fuel' h i n,
  n ≤ i + fuel → n ≤ i + fuel' →
  heap.down less fuel h i n = heap.down less fuel' h i n.
Proof.
  induction fuel as [|fuel IH]; intros fuel' h i n Hf Hf'.
  - destruct fuel' as [|fuel']; [done|]. cbn [heap.down].
    by rewrite bool_decide_true by lia.
  - destruct fuel' as [|fuel'].
    + cbn [heap.down]. by rewrite bool_decide_true by lia.
    + cbn [heap.down]. case_bool_decide as Hleaf; [done|].
      destruct (negb _); [done|].
      apply IH; destruct (_ && _); lia.
Qed.
End heap_theory.

(** ** The two comparisons *)

Lemma MaxHeap_less_asym a b :
  MaxHeap_less a b = true → MaxHeap_less b a = false.
Proof.
  unfold MaxHeap_less. rewrite bool_decide_eq_true, bool_decide_eq_false.
  intros H1 H2. by apply (Qclt_not_le _ _ H1), Qclt_le_weak.
Qed.

Lemma MaxHeap_nless_trans a b c :
  MaxHeap_less b a = false → MaxHeap_less c b = false →
  MaxHeap_less c a = false.
Proof.
  unfold MaxHeap_less. rewrite !bool_decide_eq_false, <-!Qcle_ngt.
  intros H1 H2. by etrans.
Qed.

Lemma MinHeap_less_asym a b :
  MinHeap_less a b = true → MinHeap_less b a = false.
Proof.
  unfold MinHeap_less. rewrite bool_decide_eq_true, bool_decide_eq_false.
  intros H1 H2. by apply (Qclt_not_le _ _ H1), Qclt_le_weak.
Qed.

Lemma MinHeap_nless_trans a b c :
  MinHeap_less b a = false → MinHeap_less c b = false →
  MinHeap_less c a = false.
Proof.
  unfold MinHeap_less. rewrite !bool_decide_eq_false, <-!Qcle_ngt.
  intros H1 H2. by etrans.
Qed.

(** The root of a max-heap is its largest element. *)
Lemma MaxHeap_Peek_max h top x :
  heap_ordered MaxHeap_less h → heap.Peek h = Some top → x ∈ h →
  (x ≤ top)%Qc.
Proof.
  intros Hh Htop [k Hk]%list_elem_of_lookup.
  pose proof (lookup_lt_Some _ _ _ Hk) as Hlt.
  pose proof (heap_ordered_root MaxHeap_less MaxHeap_less_asym
                MaxHeap_nless_trans h k Hh Hlt) as Hr.
  rewrite (list_lookup_total_correct _ _ _ Hk) in Hr.
  rewrite (list_lookup_total_correct _ _ _ Htop) in Hr.
  unfold MaxHeap_less in Hr. by rewrite bool_decide_eq_false, <-Qcle_ngt in Hr.
Qed.

(** The root of a min-heap is its smallest element. *)
Lemma MinHeap_Peek_min h top x :
  heap_ordered MinHeap_less h → heap.Peek h = Some top → x ∈ h →
  (top ≤ x)%Qc.
Proof.
  intros Hh Htop [k Hk]%list_elem_of_lookup.
  pose proof (lookup_lt_Some _ _ _ Hk) as Hlt.
  pose proof (heap_ordered_root MinHeap_less MinHeap_less_asym
                MinHeap_nless_trans h k Hh Hlt) as Hr.
  rewrite (list_lookup_total_correct _ _ _ Hk) in Hr.
  rewrite (list_lookup_total_correct _ _ _ Htop) in Hr.
  unfold MinHeap_less in Hr. by rewrite bool_decide_eq_false, <-Qcle_ngt in Hr.
Qed.

Lemma MaxHeap_Push h x :
  heap_ordered MaxHeap_less h →
  heap_ordered MaxHeap_less (heap.Push MaxHeap_less h x) ∧
  heap.Push MaxHeap_less h x ≡ₚ x :: h.
Proof. apply Push_spec; [apply MaxHeap_less_asym|apply MaxHeap_nless_trans]. Qed.

Lemma MinHeap_Push h x :
  heap_ordered MinHeap_less h →
  heap_ordered MinHeap_less (heap.Push MinHeap_less h x) ∧
  heap.Push MinHeap_less h x ≡ₚ x :: h.
Proof. apply Push_spec; [apply MinHeap_less_asym|apply MinHeap_nless_trans]. Qed.

Lemma MaxHeap_Pop h :
  heap_ordered MaxHeap_less h → h ≠ [] →
  ∃ x h', heap.Pop MaxHeap_less h = Some (x, h') ∧ heap.Peek h = Some x ∧
          heap_ordered MaxHeap_less h' ∧ h ≡ₚ x :: h'.
Proof. apply Pop_spec; [apply MaxHeap_less_asym|apply MaxHeap_nless_trans]. Qed.

Lemma MinHeap_Pop h :
  heap_ordered MinHeap_less h → h ≠ [] →
  ∃ x h', heap.Pop MinHeap_less h = Some (x, h') ∧ heap.Peek h = Some x ∧
          heap_ordered MinHeap_less h' ∧ h ≡ₚ x :: h'.
Proof. apply Pop_spec; [apply MinHeap_less_asym|apply MinHeap_nless_trans]. Qed.

(** ** The two heaps of the median *)

Lemma heaps_inv_nil : heaps_inv [] [].
Proof.
  split_and!; [apply heap_ordered_nil..|]. intros a b Ha. by apply elem_of_nil in Ha.
Qed.

(** Insertion keeps the partition and adds exactly [num]. *)
Lemma heaps_insert_spec num lo up lo1 up1 b :
  heaps_inv lo up → (lo = [] → up = []) →
  heaps_insert num lo up = (lo1, up1, b) →
  heaps_inv lo1 up1 ∧ lo1 ++ up1 ≡ₚ num :: lo ++ up ∧ lo1 ≠ [] ∧
  (if b then length lo1 = S (length lo) ∧ length up1 = length up
   else length lo1 = length lo ∧ length up1 = S (length up)).
Proof.
  intros (Hlo & Hup & Hle) Hemp Hins. unfold heaps_insert in Hins.
  destruct (MaxHeap_Push lo num Hlo) as [Hlo' Hplo].
  destruct (MinHeap_Push up num Hup) as [Hup' Hpup].
  assert (Hne : heap.Push MaxHeap_less lo num ≠ []).
  { intros Hnil. rewrite Hnil in Hplo. by apply Permutation_nil_cons in Hplo. }
  destruct (heap.Peek lo) as [top|] eqn:Htop.
  - case_bool_decide as Hcmp; simplify_eq.
    + unfold heaps_inv. split_and!; try done.
      * intros a c Ha Hc. rewrite Hplo in Ha.
        apply elem_of_cons in Ha as [->|Ha]; [|by apply Hle].
        etrans; [exact Hcmp|]. apply Hle; [|done].
        apply list_elem_of_lookup. by exists 0.
      * by rewrite Hplo.
      * by rewrite Hplo.
    + unfold heaps_inv. split_and!; try done.
      * intros a c Ha Hc. rewrite Hpup in Hc.
        apply elem_of_cons in Hc as [->|Hc]; [|by apply Hle].
        apply Qclt_nge in Hcmp.
        apply Qclt_le_weak. eapply Qcle_lt_trans; [|exact Hcmp].
        exact (MaxHeap_Peek_max _ _ _ Hlo Htop Ha).
      * rewrite Hpup. by rewrite Permutation_middle.
      * by intros ->.
      * by rewrite Hpup.
  - simplify_eq. assert (lo = []) as -> by (by destruct lo).
    rewrite (Hemp eq_refl) in *.
    unfold heaps_inv. split_and!; try done.
    intros a c _ Hc. by apply elem_of_nil in Hc.
Qed.

(** Moving the root of [lower] to [upper] keeps the partition. *)
Lemma move_to_upper_spec lo up :
  heaps_inv lo up → lo ≠ [] →
  ∃ lo' up', move_to_upper lo up = Some (lo', up') ∧ heaps_inv lo' up' ∧
             lo' ++ up' ≡ₚ lo ++ up ∧
             S (length lo') = length lo ∧ length up' = S (length up).
Proof.
  intros (Hlo & Hup & Hle) Hne. unfold move_to_upper.
  destruct (MaxHeap_Pop lo Hlo Hne) as (x & lo' & -> & Htop & Hlo' & Hperm).
  destruct (MinHeap_Push up x Hup) as [Hup' Hpup]. simpl.
  exists lo', (heap.Push MinHeap_less up x).
  unfold heaps_inv. split_and!; try done.
  - intros a c Ha Hc. rewrite Hpup in Hc.
    apply elem_of_cons in Hc as [->|Hc].
    + apply (MaxHeap_Peek_max lo _ _ Hlo Htop).
      rewrite Hperm. apply elem_of_cons; by right.
    + apply Hle; [|done]. rewrite Hperm. apply elem_of_cons; by right.
  - rewrite Hpup, Hperm. simpl. by rewrite Permutation_middle.
  - by rewrite Hperm.
  - by rewrite Hpup.
Qed.

(** Moving the root of [upper] to [lower] keeps the partition. *)
Lemma move_to_lower_spec lo up :
  heaps_inv lo up → up ≠ [] →
  ∃ lo' up', move_to_lower lo up = Some (lo', up') ∧ heaps_inv lo' up' ∧
             lo' ++ up' ≡ₚ lo ++ up ∧
             length lo' = S (length lo) ∧ S (length up') = length up.
Proof.
  intros (Hlo & Hup & Hle) Hne. unfold move_to_lower.
  destruct (MinHeap_Pop up Hup Hne) as (x & up' & -> & Htop & Hup' & Hperm).
  destruct (MaxHeap_Push lo x Hlo) as [Hlo' Hplo]. simpl.
  exists (heap.Push MaxHeap_less lo x), up'.
  unfold heaps_inv. split_and!; try done.
  - intros a c Ha Hc. rewrite Hplo in Ha.
    apply elem_of_cons in Ha as [->|Ha].
    + apply (MinHeap_Peek_min up _ _ Hup Htop).
      rewrite Hperm. apply elem_of_cons; by right.
    + apply Hle; [done|]. rewrite Hperm. apply elem_of_cons; by right.
  - rewrite Hplo, Hperm. simpl. by rewrite Permutation_middle.
  - by rewrite Hplo.
  - by rewrite Hperm.
Qed.

(** The heap phase of [V3.AddNumber] never panics, keeps the partition and
    keeps the counter within [-1, 1]. *)
Lemma V3_heaps_spec num lo up bc :
  heaps_inv lo up → (lo = [] → up = [] ∧ bc = 0%Z) → (-1 ≤ bc ≤ 1)%Z →
  ∃ lo' up' bc', V3_heaps num lo up bc = Some (lo', up', bc') ∧
                 heaps_inv lo' up' ∧ lo' ≠ [] ∧ (-1 ≤ bc' ≤ 1)%Z ∧
                 lo' ++ up' ≡ₚ num :: lo ++ up.
Proof.
  intros Hinv Hemp Hbc. unfold V3_heaps.
  destruct (heaps_insert num lo up) as [[lo1 up1] b] eqn:Hins.
  destruct (heaps_insert_spec _ _ _ _ _ _ Hinv (λ H, proj1 (Hemp H)) Hins)
    as (Hinv1 & Hperm1 & Hne1 & Hlen1).
  assert (Hlen : length lo1 + length up1 = S (length lo + length up)).
  { rewrite <-length_app, Hperm1. simpl. by rewrite length_app. }
  case_bool_decide as Hhi; [|case_bool_decide as Hlo].
  - destruct (move_to_upper_spec lo1 up1 Hinv1 Hne1)
      as (lo2 & up2 & -> & Hinv2 & Hperm2 & Hl1 & Hl2). simpl.
    eexists _, _, _.
    split_and!; [done|done| |destruct b; lia..|by rewrite Hperm2].
    intros ->. destruct b; [|lia]. destruct Hlen1 as [Hlen1 _].
    simpl in Hl1. destruct lo as [|]; [|simpl in *; lia].
    destruct (Hemp eq_refl) as [_ ->]. lia.
  - assert (up1 ≠ []) as Hne.
    { destruct b; [lia|]. intros ->. simpl in *. lia. }
    destruct (move_to_lower_spec lo1 up1 Hinv1 Hne)
      as (lo2 & up2 & -> & Hinv2 & Hperm2 & Hl1 & Hl2). simpl.
    eexists _, _, _.
    split_and!; [done|done| |destruct b; lia..|by rewrite Hperm2].
    intros ->. simpl in Hl1. lia.
  - eexists _, _, _. split_and!; [done|done|done|destruct b; lia..|done].
Qed.

(** The heap phase of [Part001.AddNumber] never panics, keeps the partition
    and keeps [lower] as large as [upper] or one larger. *)
Lemma Part001_heaps_spec num lo up :
  heaps_inv lo up → length up ≤ length lo ≤ length up + 1 →
  ∃ lo' up', Part001_heaps num lo up = Some (lo', up') ∧
             heaps_inv lo' up' ∧
             length up' ≤ length lo' ≤ length up' + 1 ∧
             lo' ++ up' ≡ₚ num :: lo ++ up.
Proof.
  intros Hinv Hbal. unfold Part001_heaps.
  destruct (heaps_insert num lo up) as [[lo1 up1] b] eqn:Hins.
  assert (Hemp : lo = [] → up = []).
  { intros ->. destruct up; [done|simpl in *; lia]. }
  destruct (heaps_insert_spec _ _ _ _ _ _ Hinv Hemp Hins)
    as (Hinv1 & Hperm1 & Hne1 & Hlen1).
  case_bool_decide as Hhi; [|case_bool_decide as Hlo].
  - destruct (move_to_upper_spec lo1 up1 Hinv1 Hne1)
      as (lo2 & up2 & -> & Hinv2 & Hperm2 & Hl1 & Hl2).
    eexists _, _. split_and!; [done|done|destruct b; lia..|by rewrite Hperm2].
  - assert (up1 ≠ []) as Hne by (intros ->; simpl in *; lia).
    destruct (move_to_lower_spec lo1 up1 Hinv1 Hne)
      as (lo2 & up2 & -> & Hinv2 & Hperm2 & Hl1 & Hl2).
    eexists _, _. split_and!; [done|done|destruct b; lia..|by rewrite Hperm2].
  - eexists _, _. split_and!; [done|done|lia..|done].
Qed.

(** ** [AddNumber] as the composition of its phases *)

Ltac mred :=
  cbn -[heap.Push heap.Pop V3.RingBuffer.Add wrap64 Qcplus Z.add Z.sub
        bool_decide xltb sort_SearchFloat64s take drop].

Ltac mcases :=
  repeat (first
    [ progress case_bool_decide
    | match goal with
      | |- context [heap.Pop ?l ?h] => destruct (heap.Pop l h) as [[??]|]
      | |- context [V3.RingBuffer.Add ?n ?r] =>
          destruct (V3.RingBuffer.Add n r)
      end ]; mred).

Lemma V3_AddNumber_phases num ds :
  V3.AddNumber num ds =
  match V3_heaps num (V3.lower ds) (V3.upper ds) (V3.balanceCounter ds) with
  | None => Panic
  | Some (lo, up, bc) =>
      match V3.RingBuffer.Add num (V3.recentData ds) with
      | Panic => Panic
      | Ok _ rb =>
          Ok () (V3.mkDataStreamStats
                   (V3.totalSum ds + num)%Qc (wrap64 (V3.count ds + 1))
                   (min_step num (V3.minVal ds)) (max_step num (V3.maxVal ds))
                   lo up rb bc (V3.cached ds) false (V3.cachePercentile ds))
      end
  end.
Proof.
  destruct ds as [ts c mn mx lo up rb bc ca cu cp].
  unfold V3.AddNumber, V3_heaps, heaps_insert, V3.balanceHeaps, min_step,
    max_step, move_to_upper, move_to_lower, heap.Peek, V3.on_recentData.
  unfold mbind, M_bind, modify, get, lift, mret, M_ret, panic, option_bind.
  mred.
  destruct (xltb (Fin num) mn); mred.
  all: destruct (xltb mx (Fin num)); mred.
  all: destruct lo as [|top lo']; mred.
  all: mcases; first [done|lia].
Qed.

Lemma Part001_AddNumber_phases num ds :
  Part001.AddNumber num ds =
  match Part001_heaps num (Part001.lower ds) (Part001.upper ds) with
  | None => Panic
  | Some (lo, up) =>
      let idx := sort_SearchFloat64s (Part001.sorted ds) num in
      Ok () (Part001.mkDataStreamStats
               (Part001.totalSum ds + num)%Qc
               (wrap64 (Part001.count ds + 1))
               (min_step num (Part001.minVal ds))
               (max_step num (Part001.maxVal ds))
               lo up
               (take idx (Part001.sorted ds) ++ [num] ++
                drop idx (Part001.sorted ds)))
  end.
Proof.
  destruct ds as [ts c mn mx lo up so].
  unfold Part001.AddNumber, Part001_heaps, heaps_insert, min_step,
    max_step, move_to_upper, move_to_lower, heap.Peek.
  unfold mbind, M_bind, modify, get, lift, mret, M_ret, panic, option_bind.
  mred.
  destruct (xltb (Fin num) mn); mred.
  all: destruct (xltb mx (Fin num)); mred.
  all: destruct lo as [|top lo']; mred.
  all: mcases; first [done|lia].
Qed.

(** ** The ring buffer *)

Lemma ring_inv_new c : 0 < c → ring_inv c [] (V3.NewRingBuffer c).
Proof.
  intros Hc. unfold ring_inv, ring_window, most_recent. cbn.
  rewrite length_replicate, Nat.Div0.mod_0_l.
  split_and!; try done. by rewrite bool_decide_true by lia.
Qed.

(** Rotating the buffer by one slot after overwriting the oldest value. *)
Lemma ring_rotate (A B : list Qc) (y num : Qc) :
  let h' := (length A + 1) `mod` length (A ++ y :: B) in
  drop h' (A ++ num :: B) ++ take h' (A ++ num :: B) = B ++ A ++ [num].
Proof.
  rewrite length_app. cbn [length]. destruct B as [|b B].
  - cbn [length]. rewrite Nat.Div0.mod_same.
    by rewrite take_0, drop_0, app_nil_r.
  - rewrite Nat.mod_small by (cbn [length]; lia).
    rewrite (cons_middle num A), (assoc_L (++)).
    rewrite drop_app_length', take_app_length'
      by (rewrite length_app; cbn [length]; lia).
    done.
Qed.

(** [Add] on a buffer with at least one slot never panics and keeps the
    [cap] most recent values. *)
Lemma ring_Add_spec c hist rb num :
  ring_inv c hist rb →
  ∃ rb', V3.RingBuffer.Add num rb = Ok () rb' ∧
         ring_inv c (hist ++ [num]) rb'.
Proof.
  destruct rb as [data h sz cp]. unfold ring_inv, ring_window. cbn.
  intros (Hc & -> & Hlen & -> & -> & Hwin).
  assert (Hh : length hist `mod` c < c) by (apply Nat.mod_upper_bound; lia).
  unfold V3.RingBuffer.Add. cbn.
  rewrite bool_decide_true by lia. rewrite bool_decide_false by lia.
  eexists. split; [done|]. cbn. rewrite length_insert, length_app. cbn.
  destruct (lookup_lt_is_Some_2 data (length hist `mod` c)) as [y Hy]; [lia|].
  pose proof (take_drop_middle _ _ _ Hy) as Hdata.
  rewrite insert_take_drop by lia.
  set (A := take (length hist `mod` c) data) in *.
  set (B := drop (S (length hist `mod` c)) data) in *.
  assert (HA : length A = length hist `mod` c).
  { subst A. rewrite length_take. lia. }
  assert (Hrot := ring_rotate A B y num). cbn zeta in Hrot.
  rewrite Hdata, Hlen, HA in Hrot.
  rewrite Nat.Div0.add_mod_idemp_l in Hrot |- *.
  split_and!; [done|done|done|case_bool_decide; lia|done|].
  unfold most_recent in *. rewrite length_app. cbn [length].
  destruct (decide (length hist < c)) as [Hlt|Hge].
  - rewrite bool_decide_true in Hwin by lia.
    rewrite (bool_decide_true (length hist `min` c < c)) by lia.
    replace (length hist `min` c) with (length hist) in * by lia.
    rewrite Nat.sub_diag, drop_0 in Hwin.
    assert (A = hist) as HAh.
    { subst A. by rewrite Nat.mod_small by lia. }
    rewrite Nat.mod_small in HA by lia.
    replace ((length hist + 1) `min` c) with (length hist + 1) by lia.
    rewrite Nat.sub_diag, drop_0. case_bool_decide as Hfull.
    + rewrite (cons_middle num A), (assoc_L (++)).
      rewrite take_app_length' by (rewrite length_app; cbn [length]; lia).
      by rewrite HAh.
    + assert (B = []) as HB.
      { apply length_zero_iff_nil. subst B. rewrite length_drop.
        rewrite Nat.mod_small by lia. lia. }
      rewrite Hrot, HB. by rewrite HAh.
  - rewrite bool_decide_false in Hwin by lia.
    rewrite (bool_decide_false (length hist `min` c < c)) by lia.
    replace (length hist `min` c) with c in * by lia.
    rewrite (bool_decide_false (c < c)) by lia.
    rewrite Hrot.
    replace ((length hist + 1) `min` c) with c by lia.
    rewrite (drop_S _ _ _ Hy) in Hwin. fold A B in Hwin.
    replace (length hist + 1 - c) with ((length hist - c) + 1) by lia.
    rewrite drop_app_le by lia.
    rewrite <-drop_drop, <-Hwin. cbn. by rewrite (assoc_L (++)).
Qed.

(** ** The running aggregate *)

Lemma sum_list_snoc l x : sum_list (l ++ [x]) = (sum_list l + x)%Qc.
Proof.
  unfold sum_list. induction l as [|y l IH]; cbn.
  - by rewrite Qcplus_0_r, Qcplus_0_l.
  - rewrite IH. by rewrite Qcplus_assoc.
Qed.

Lemma wrap64_small z : (- 2 ^ 63 ≤ z < 2 ^ 63)%Z → wrap64 z = z.
Proof. unfold wrap64. lia. Qed.

Lemma wrap64_succ z : wrap64 (wrap64 z + 1) = wrap64 (z + 1).
Proof. unfold wrap64. lia. Qed.

Lemma min_inv_step hist m x :
  min_inv hist m → min_inv (hist ++ [x]) (min_step x m).
Proof.
  unfold min_step. destruct m as [|q|]; cbn; [done| |].
  - intros [Hin Hmin]. case_bool_decide as Hlt; cbn.
    + split; [apply elem_of_app; right; by apply list_elem_of_singleton|].
      intros z [Hz|Hz%list_elem_of_singleton]%elem_of_app; [|by subst].
      apply Qclt_le_weak. eapply Qclt_le_trans; [done|by apply Hmin].
    + split; [apply elem_of_app; by left|].
      intros z [Hz|Hz%list_elem_of_singleton]%elem_of_app; [by apply Hmin|].
      subst. by apply Qcle_ngt.
  - intros ->. cbn. split; [by apply list_elem_of_singleton|].
    by intros z ->%list_elem_of_singleton.
Qed.

Lemma max_inv_step hist m x :
  max_inv hist m → max_inv (hist ++ [x]) (max_step x m).
Proof.
  unfold max_step. destruct m as [|q|]; cbn; [| |done].
  - intros ->. cbn. split; [by apply list_elem_of_singleton|].
    by intros z ->%list_elem_of_singleton.
  - intros [Hin Hmax]. case_bool_decide as Hlt; cbn.
    + split; [apply elem_of_app; right; by apply list_elem_of_singleton|].
      intros z [Hz|Hz%list_elem_of_singleton]%elem_of_app; [|by subst].
      apply Qclt_le_weak. eapply Qcle_lt_trans; [by apply Hmax|done].
    + split; [apply elem_of_app; by left|].
      intros z [Hz|Hz%list_elem_of_singleton]%elem_of_app; [by apply Hmax|].
      subst. by apply Qcle_ngt.
Qed.

(** ** Sorting *)

Lemma sort_Float64s_Sorted l : Sorted Qcle (sort_Float64s l).
Proof. apply (Sorted_merge_sort Qcle). Qed.

Lemma sort_Float64s_Permutation l : sort_Float64s l ≡ₚ l.
Proof. apply merge_sort_Permutation. Qed.

Lemma sort_Float64s_length l : length (sort_Float64s l) = length l.
Proof. by rewrite sort_Float64s_Permutation. Qed.

Lemma sort_Float64s_elem_of l x : x ∈ sort_Float64s l ↔ x ∈ l.
Proof. by rewrite sort_Float64s_Permutation. Qed.

(** The sorted slice depends on the values only, not on their order. *)
Lemma sort_Float64s_proper l1 l2 :
  l1 ≡ₚ l2 → sort_Float64s l1 = sort_Float64s l2.
Proof.
  intros Hperm. apply (Sorted_unique Qcle); try apply _.
  - apply sort_Float64s_Sorted.
  - apply sort_Float64s_Sorted.
  - by rewrite !sort_Float64s_Permutation.
Qed.

(** Sorting two blocks of which the first lies below the second. *)
Lemma sort_Float64s_app l1 l2 :
  (∀ a b, a ∈ l1 → b ∈ l2 → (a ≤ b)%Qc) →
  sort_Float64s (l1 ++ l2) = sort_Float64s l1 ++ sort_Float64s l2.
Proof.
  intros Hle. apply (Sorted_unique Qcle); try apply _.
  - apply sort_Float64s_Sorted.
  - apply StronglySorted_Sorted, StronglySorted_app_2.
    + intros a b Ha Hb. rewrite sort_Float64s_elem_of in Ha, Hb.
      by apply Hle.
    + apply Sorted_StronglySorted; [apply _|apply sort_Float64s_Sorted].
    + apply Sorted_StronglySorted; [apply _|apply sort_Float64s_Sorted].
  - by rewrite !sort_Float64s_Permutation.
Qed.

(** In a sorted slice a smaller index holds a smaller or equal value. *)
Lemma Sorted_lookup_le s : ∀ i j a b,
  Sorted Qcle s → i ≤ j → s !! i = Some a → s !! j = Some b → (a ≤ b)%Qc.
Proof.
  intros i j a b Hs. apply (Sorted_StronglySorted Qcle) in Hs; [|apply _..].
  revert i j a b. induction Hs as [|x s Hs IH Hall]; intros i j a b Hij Ha Hb.
  - by rewrite lookup_nil in Ha.
  - destruct i as [|i], j as [|j]; cbn in *; simplify_eq.
    + done.
    + rewrite Forall_forall in Hall. apply Hall.
      apply list_elem_of_lookup. by exists j.
    + lia.
    + apply (IH i j); [lia|done..].
Qed.

(** The last slot of a sorted slice holds its maximum, the first slot its
    minimum. *)
Lemma Sorted_last_max s x :
  Sorted Qcle s → x ∈ s → (x ≤ s !!! (length s - 1)%nat)%Qc.
Proof.
  intros Hs [i Hi]%list_elem_of_lookup.
  pose proof (lookup_lt_Some _ _ _ Hi).
  apply (Sorted_lookup_le s i (length s - 1)); [done|lia|done|].
  apply list_lookup_lookup_total_lt. lia.
Qed.

Lemma Sorted_first_min s x :
  Sorted Qcle s → x ∈ s → (s !!! 0%nat ≤ x)%Qc.
Proof.
  intros Hs [i Hi]%list_elem_of_lookup.
  pose proof (lookup_lt_Some _ _ _ Hi).
  apply (Sorted_lookup_le s 0 i); [done|lia| |done].
  apply list_lookup_lookup_total_lt. lia.
Qed.

(** ** Binary search and insertion *)

(** More fuel does not change the result of the search loop. *)
Lemma sort_Search_loop_fuel fuel f : ∀ fuel' i j,
  j - i < fuel → j - i < fuel' →
  sort_Search_loop fuel f i j = sort_Search_loop fuel' f i j.
Proof.
  induction fuel as [|fuel IH]; intros fuel' i j Hf Hf'; [lia|].
  destruct fuel' as [|fuel']; [lia|]. cbn [sort_Search_loop].
  case_bool_decide as Hij; [|done].
  destruct (negb _); apply IH; lia.
Qed.

(** On a predicate that is false up to some index and true from it on, the
    search returns that index. *)
Lemma sort_Search_loop_spec f n fuel : ∀ i j,
  (∀ k k', k ≤ k' < n → f k = true → f k' = true) →
  i ≤ j ≤ n → j - i < fuel →
  (∀ k, k < i → f k = false) → (∀ k, j ≤ k < n → f k = true) →
  sort_Search_loop fuel f i j ≤ n ∧
  (∀ k, k < sort_Search_loop fuel f i j → f k = false) ∧
  (∀ k, sort_Search_loop fuel f i j ≤ k < n → f k = true).
Proof.
  intros i j Hmono. revert i j.
  induction fuel as [|fuel IH]; intros i j Hij Hfuel Hlow Hhigh; [lia|].
  cbn [sort_Search_loop]. case_bool_decide as Hlt.
  - set (h := (i + j) / 2). assert (i ≤ h < j) as Hh by (subst h; lia).
    destruct (f h) eqn:Hfh; cbn [negb].
    + apply IH; [lia|lia|done|]. intros k Hk.
      apply (Hmono h k); [lia|done].
    + apply IH; [lia|lia| |done]. intros k Hk.
      destruct (f k) eqn:Hfk; [|done].
      rewrite (Hmono k h) in Hfh; [done|lia|done].
  - assert (i = j) as -> by lia. split_and!; [lia|done..].
Qed.

(** [sort.SearchFloat64s] on a sorted slice: the values before the index
    are below [x], the values from the index on are at least [x]. *)
Lemma sort_SearchFloat64s_spec a x :
  Sorted Qcle a →
  let idx := sort_SearchFloat64s a x in
  idx ≤ length a ∧
  (∀ y, y ∈ take idx a → (y < x)%Qc) ∧
  (∀ y, y ∈ drop idx a → (x ≤ y)%Qc).
Proof.
  intros Ha idx.
  destruct (sort_Search_loop_spec
              (λ i, bool_decide (x ≤ a !!! i)%Qc) (length a)
              (S (length a)) 0 (length a)) as (Hle & Hlow & Hhigh).
  - intros k k' Hk Hfk. apply bool_decide_eq_true in Hfk.
    apply bool_decide_eq_true. etrans; [exact Hfk|].
    apply (Sorted_lookup_le a k k'); [done|lia|..];
      apply list_lookup_lookup_total_lt; lia.
  - lia.
  - lia.
  - intros k Hk. lia.
  - intros k Hk. lia.
  - fold (sort_Search (length a) (λ i, bool_decide (x ≤ a !!! i)%Qc)) in *.
    fold (sort_SearchFloat64s a x) in *. fold idx in Hle, Hlow, Hhigh.
    split_and!; [done|..].
    + intros y [k Hk]%list_elem_of_lookup.
      pose proof (lookup_lt_Some _ _ _ Hk) as Hlt.
      rewrite length_take in Hlt. rewrite lookup_take_lt in Hk by lia.
      specialize (Hlow k ltac:(lia)). apply bool_decide_eq_false in Hlow.
      rewrite (list_lookup_total_correct _ _ _ Hk) in Hlow.
      by apply Qclt_nge.
    + intros y [k Hk]%list_elem_of_lookup.
      pose proof (lookup_lt_Some _ _ _ Hk) as Hlt.
      rewrite length_drop in Hlt. rewrite lookup_drop in Hk.
      specialize (Hhigh (idx + k) ltac:(lia)).
      apply bool_decide_eq_true in Hhigh.
      by rewrite (list_lookup_total_correct _ _ _ Hk) in Hhigh.
Qed.

(** The binary insertion of [Part001.AddNumber] keeps the slice sorted. *)
Lemma sorted_insert hist x :
  let a := sort_Float64s hist in
  let idx := sort_SearchFloat64s a x in
  take idx a ++ [x] ++ drop idx a = sort_Float64s (hist ++ [x]).
Proof.
  intros a idx.
  pose proof (sort_Float64s_Sorted hist) as Ha. fold a in Ha.
  destruct (sort_SearchFloat64s_spec a x Ha) as (Hle & Hlow & Hhigh).
  fold idx in Hle, Hlow, Hhigh.
  apply (Sorted_StronglySorted Qcle) in Ha; [|apply _..].
  rewrite <-(take_drop idx a) in Ha.
  apply StronglySorted_app in Ha as (Hcross & Htake & Hdrop).
  apply (Sorted_unique Qcle); try apply _.
  - apply StronglySorted_Sorted, StronglySorted_app_2; [|done|].
    + intros y z Hy [->%list_elem_of_singleton|Hz]%elem_of_app.
      * by apply Qclt_le_weak, Hlow.
      * by apply Hcross.
    + apply StronglySorted_app_2; [|repeat constructor|done].
      intros y z ->%list_elem_of_singleton Hz. by apply Hhigh.
  - apply sort_Float64s_Sorted.
  - rewrite sort_Float64s_Permutation.
    rewrite (Permutation_app_comm [x]), (assoc_L (++)), take_drop.
    subst a. by rewrite sort_Float64s_Permutation.
Qed.

(** ** The invariant of the engines *)

Lemma V3_inv_new c : 0 < c → V3_inv c [] (V3.NewDataStreamStats c).
Proof.
  intros Hc. unfold V3_inv. cbn.
  split_and!; try done; [apply heaps_inv_nil|by apply ring_inv_new].
Qed.

(** On an engine with at least one slot [AddNumber] never panics, and it
    keeps the invariant for the history extended by [num]. *)
Lemma V3_AddNumber_inv c hist ds num :
  V3_inv c hist ds →
  ∃ ds', V3.AddNumber num ds = Ok () ds' ∧ V3_inv c (hist ++ [num]) ds'.
Proof.
  intros (Hsum & Hcnt & Hmin & Hmax & Hheaps & Hemp & Hbc & Hperm & Hring
          & Hmap & Hupd).
  rewrite V3_AddNumber_phases.
  destruct (V3_heaps_spec num _ _ _ Hheaps Hemp Hbc)
    as (lo & up & bc & -> & Hheaps' & Hne & Hbc' & Hperm').
  destruct (ring_Add_spec _ _ _ num Hring) as (rb & -> & Hring').
  eexists. split; [done|]. unfold V3_inv. cbn.
  split_and!; try done; try lia.
  - by rewrite sum_list_snoc, Hsum.
  - rewrite Hcnt, wrap64_succ, length_app. cbn. f_equal. lia.
  - by apply min_inv_step.
  - by apply max_inv_step.
  - rewrite Hperm', Hperm. by rewrite <-Permutation_cons_append.
Qed.

Lemma V3_feed_inv c l : ∀ hist ds,
  V3_inv c hist ds →
  ∃ ds', V3.feed l ds = Ok () ds' ∧ V3_inv c (hist ++ l) ds'.
Proof.
  induction l as [|x l IH]; intros hist ds Hinv.
  - exists ds. split; [done|]. by rewrite app_nil_r.
  - destruct (V3_AddNumber_inv _ _ _ x Hinv) as (ds1 & Hrun & Hinv1).
    destruct (IH _ _ Hinv1) as (ds2 & Hrun2 & Hinv2).
    exists ds2. split.
    + cbn. unfold mbind, M_bind. by rewrite Hrun.
    + by rewrite (cons_middle x hist l), (assoc_L (++)).
Qed.

(** Every run of [feed] on a new engine with at least one slot returns, in
    a state that satisfies the invariant for the values fed. *)
Lemma V3_feed_new c l :
  0 < c →
  ∃ ds, V3.feed l (V3.NewDataStreamStats c) = Ok () ds ∧ V3_inv c l ds.
Proof. intros Hc. apply (V3_feed_inv c l [] _ (V3_inv_new c Hc)). Qed.

Lemma Part001_inv_new : Part001_inv [] Part001.NewDataStreamStats.
Proof.
  unfold Part001_inv. cbn. split_and!; try done; [apply heaps_inv_nil|lia].
Qed.

Lemma Part001_AddNumber_inv hist ds num :
  Part001_inv hist ds →
  ∃ ds', Part001.AddNumber num ds = Ok () ds' ∧
         Part001_inv (hist ++ [num]) ds'.
Proof.
  intros (Hsum & Hcnt & Hmin & Hmax & Hheaps & Hbal & Hperm & Hsorted).
  rewrite Part001_AddNumber_phases.
  destruct (Part001_heaps_spec num _ _ Hheaps Hbal)
    as (lo & up & -> & Hheaps' & Hbal' & Hperm').
  eexists. split; [done|]. unfold Part001_inv.
  cbn [Part001.totalSum Part001.count Part001.minVal Part001.maxVal
       Part001.lower Part001.upper Part001.sorted].
  split_and!; try done; try lia.
  - by rewrite sum_list_snoc, Hsum.
  - rewrite Hcnt, wrap64_succ, length_app. cbn. f_equal. lia.
  - by apply min_inv_step.
  - by apply max_inv_step.
  - rewrite Hperm', Hperm. by rewrite <-Permutation_cons_append.
  - rewrite Hsorted. apply sorted_insert.
Qed.

Lemma Part001_feed_inv l : ∀ hist ds,
  Part001_inv hist ds →
  ∃ ds', Part001.feed l ds = Ok () ds' ∧ Part001_inv (hist ++ l) ds'.
Proof.
  induction l as [|x l IH]; intros hist ds Hinv.
  - exists ds. split; [done|]. by rewrite app_nil_r.
  - destruct (Part001_AddNumber_inv _ _ x Hinv) as (ds1 & Hrun & Hinv1).
    destruct (IH _ _ Hinv1) as (ds2 & Hrun2 & Hinv2).
    exists ds2. split.
    + cbn. unfold mbind, M_bind. by rewrite Hrun.
    + by rewrite (cons_middle x hist l), (assoc_L (++)).
Qed.

Lemma Part001_feed_new l :
  ∃ ds, Part001.feed l Part001.NewDataStreamStats = Ok () ds ∧
        Part001_inv l ds.
Proof. apply (Part001_feed_inv l [] _ Part001_inv_new). Qed.

(** ** The nearest-rank index *)

Lemma float64_of_nat_nonneg n : (0 ≤ float64_of_nat n)%Qc.
Proof.
  unfold float64_of_nat, Qcle. cbn.
  change (inject_Z 0 <= inject_Z (Z.of_nat n))%Q. rewrite <-Zle_Qle. lia.
Qed.

Lemma float64_of_nat_pos n : 0 < n → (0 < float64_of_nat n)%Qc.
Proof.
  intros Hn. unfold float64_of_nat, Qclt. cbn.
  change (inject_Z 0 < inject_Z (Z.of_nat n))%Q. rewrite <-Zlt_Qlt. lia.
Qed.

Lemma hundredth_pos : (0 < / Qc_of_Z 100)%Qc.
Proof. done. Qed.

(** Scaling a rank to the window is monotone. *)
Lemma rank_scale_le p q n :
  (p ≤ q)%Qc →
  (p / Qc_of_Z 100 * float64_of_nat n ≤ q / Qc_of_Z 100 * float64_of_nat n)%Qc.
Proof.
  intros Hpq. apply Qcmult_le_compat_r; [|apply float64_of_nat_nonneg].
  apply Qcmult_le_compat_r; [done|].
  apply Qclt_le_weak, hundredth_pos.
Qed.

Lemma rank_scale_lt p q n :
  0 < n → (p < q)%Qc →
  (p / Qc_of_Z 100 * float64_of_nat n < q / Qc_of_Z 100 * float64_of_nat n)%Qc.
Proof.
  intros Hn Hpq. apply Qcmult_lt_compat_r; [by apply float64_of_nat_pos|].
  apply Qcmult_lt_compat_r; [apply hundredth_pos|done].
Qed.

Lemma rank_scale_100 n :
  (Qc_of_Z 100 / Qc_of_Z 100 * float64_of_nat n)%Qc = float64_of_nat n.
Proof.
  unfold Qcdiv. rewrite Qcmult_inv_r by done. apply Qcmult_1_l.
Qed.

Lemma rank_scale_0 n :
  (Qc_of_Z 0 / Qc_of_Z 100 * float64_of_nat n)%Qc = 0%Qc.
Proof.
  replace (Qc_of_Z 0) with 0%Qc by (by apply Qc_is_canon).
  unfold Qcdiv. by rewrite !Qcmult_0_l.
Qed.

Lemma Qceiling_float64_of_nat n :
  Qceiling (float64_of_nat n) = Z.of_nat n.
Proof. unfold float64_of_nat. cbn. apply Qceiling_Z. Qed.

(** The index is monotone in the rank. *)
Lemma percentile_index_mono p q n :
  (p ≤ q)%Qc → (V3.percentile_index p n ≤ V3.percentile_index q n)%Z.
Proof.
  intros Hpq. unfold V3.percentile_index.
  pose proof (Qceiling_resp_le _ _ (rank_scale_le p q n Hpq)).
  repeat case_bool_decide; lia.
Qed.

Lemma percentile_index_100 n :
  0 < n → V3.percentile_index (Qc_of_Z 100) n = (Z.of_nat n - 1)%Z.
Proof.
  intros Hn. unfold V3.percentile_index.
  rewrite rank_scale_100, Qceiling_float64_of_nat.
  rewrite bool_decide_false; lia.
Qed.

(** For a rank in (0, 100] the index is a slot of the window. *)
Lemma percentile_index_in_range p n :
  0 < n → (p ≤ Qc_of_Z 100)%Qc → (0 ≤ V3.percentile_index p n < Z.of_nat n)%Z.
Proof.
  intros Hn Hp.
  pose proof (percentile_index_mono p (Qc_of_Z 100) n Hp) as Hle.
  rewrite percentile_index_100 in Hle by done.
  split; [|lia]. unfold V3.percentile_index. case_bool_decide; lia.
Qed.

(** For a rank of at most 0 the index is clamped to 0. *)
Lemma percentile_index_nonpos p n :
  (p ≤ 0)%Qc → V3.percentile_index p n = 0%Z.
Proof.
  intros Hp. unfold V3.percentile_index.
  pose proof (Qceiling_resp_le _ _ (rank_scale_le p (Qc_of_Z 0) n Hp)) as Hc.
  rewrite rank_scale_0 in Hc. change (Qceiling 0%Qc) with 0%Z in Hc.
  case_bool_decide; lia.
Qed.

(** For a rank above 100 the index is past the last slot. *)
Lemma percentile_index_above p n :
  0 < n → (Qc_of_Z 100 < p)%Qc → (Z.of_nat n ≤ V3.percentile_index p n)%Z.
Proof.
  intros Hn Hp. unfold V3.percentile_index.
  pose proof (rank_scale_lt _ _ n Hn Hp) as Hlt.
  rewrite rank_scale_100 in Hlt.
  set (x := (p / Qc_of_Z 100 * float64_of_nat n)%Qc) in *.
  assert (Z.of_nat n < Qceiling x)%Z as Hc.
  { rewrite Zlt_Qlt. eapply Qlt_le_trans; [exact Hlt|]. apply Qle_ceiling. }
  case_bool_decide; lia.
Qed.

(** ** Queries *)

(** Running a query after [feed]. *)
Lemma bind_Ok {St A B} (m : M St A) (k : M St B) s a s' :
  m s = Ok a s' → (m;; k) s = k s'.
Proof. intros H. unfold mbind, M_bind. by rewrite H. Qed.

(** [GetPercentile] on a state whose window lies within the buffer. *)
Lemma V3_GetPercentile_unfold p ds :
  let rb := V3.recentData ds in
  let sorted :=
    sort_Float64s (take (V3.RingBuffer.size rb) (V3.RingBuffer.data rb)) in
  V3.RingBuffer.size rb ≤ length (V3.RingBuffer.data rb) →
  V3.GetPercentile p ds =
    if bool_decide (V3.RingBuffer.size rb = 0) then Ok 0%Qc ds
    else match sorted !! Z.to_nat (V3.percentile_index p (V3.RingBuffer.size rb))
         with
         | Some v => Ok v ds
         | None => Panic
         end.
Proof.
  destruct ds as [ts c mn mx lo up [data h sz cp] bc ca cu cpm]. cbn.
  intros Hsz. unfold V3.GetPercentile, V3.on_recentData, V3.RingBuffer.GetSorted.
  unfold mbind, M_bind, mret, M_ret, lift, panic. cbn.
  rewrite bool_decide_true by done. cbn.
  rewrite sort_Float64s_length, length_take, Nat.min_l by done.
  case_bool_decide; [done|]. by case_match.
Qed.

(** The sorted snapshot of the ring buffer is the sort of the most recent
    values. *)
Lemma ring_inv_sorted c hist rb :
  ring_inv c hist rb →
  V3.RingBuffer.size rb = length hist `min` c ∧
  V3.RingBuffer.size rb ≤ length (V3.RingBuffer.data rb) ∧
  sort_Float64s (take (V3.RingBuffer.size rb) (V3.RingBuffer.data rb)) =
    sort_Float64s (most_recent (length hist `min` c) hist).
Proof.
  destruct rb as [data h sz cp]. unfold ring_inv, ring_window. cbn.
  intros (Hc & -> & Hlen & -> & -> & Hwin).
  split_and!; [done|lia|]. rewrite <-Hwin. apply sort_Float64s_proper.
  case_bool_decide as Hlt; [done|].
  rewrite take_ge by lia.
  rewrite <-(take_drop (length hist `mod` c) data) at 1.
  apply Permutation_app_comm.
Qed.

(** [AddNumber] leaves the cached snapshot alone and marks it invalid. *)
Lemma V3_AddNumber_cache num ds ds' :
  V3.AddNumber num ds = Ok () ds' →
  V3.cached ds' = V3.cached ds ∧ V3.cacheUpdated ds' = false.
Proof.
  rewrite V3_AddNumber_phases. intros H.
  repeat case_match; simplify_eq. done.
Qed.

Lemma V3_feed_cache l : ∀ ds ds',
  V3.feed l ds = Ok () ds' →
  V3.percentile (V3.cached ds) = None → V3.cacheUpdated ds = false →
  V3.percentile (V3.cached ds') = None ∧ V3.cacheUpdated ds' = false.
Proof.
  induction l as [|x l IH]; intros ds ds' Hrun Hmap Hupd.
  - cbn in Hrun. unfold mret, M_ret in Hrun. by simplify_eq.
  - cbn in Hrun. unfold mbind, M_bind in Hrun.
    destruct (V3.AddNumber x ds) as [[] ds1|] eqn:Hadd; [|done].
    destruct (V3_AddNumber_cache _ _ _ Hadd) as [Hc Hu].
    apply (IH ds1 ds' Hrun); [by rewrite Hc|done].
Qed.

(** With a valid cache [GetCachedStats] returns the stored snapshot and
    changes nothing. *)
Lemma V3_GetCachedStats_valid ds :
  V3.cacheUpdated ds = true → V3.GetCachedStats ds = Ok (V3.cached ds) ds.
Proof.
  intros H. unfold V3.GetCachedStats, mbind, M_bind, get, mret, M_ret.
  by rewrite H.
Qed.

(** The queries leave the state as they found it. *)
Lemma V3_GetMean_Ok ds : ∃ v, V3.GetMean ds = Ok v ds.
Proof.
  unfold V3.GetMean, mbind, M_bind, get, mret, M_ret.
  case_bool_decide; eauto.
Qed.

Lemma V3_GetMedian_preserves ds : preserves (V3.GetMedian ds) ds.
Proof.
  unfold V3.GetMedian, heap.Peek, mbind, M_bind, get, mret, M_ret, lift, panic.
  repeat case_bool_decide; try done;
    by destruct (V3.lower ds !! 0), (V3.upper ds !! 0).
Qed.

Lemma V3_GetSorted_preserves rb : preserves (V3.RingBuffer.GetSorted rb) rb.
Proof. unfold V3.RingBuffer.GetSorted. by case_bool_decide. Qed.

Lemma V3_GetPercentile_preserves p ds : preserves (V3.GetPercentile p ds) ds.
Proof.
  destruct ds as [ts c mn mx lo up rb bc ca cu cpm].
  unfold V3.GetPercentile, V3.on_recentData, mbind, M_bind, mret, M_ret,
    lift, panic.
  pose proof (V3_GetSorted_preserves rb) as Hrb. cbn [V3.recentData].
  destruct (V3.RingBuffer.GetSorted rb) as [sorted rb'|]; [|done].
  cbn in Hrb. subst rb'. cbn -[bool_decide].
  case_bool_decide; [done|]. by case_match.
Qed.

(** With an invalid cache and a nil [percentile] map, [GetCachedStats]
    panics: at the latest on the assignment to [percentile[95]]. *)
Lemma V3_GetCachedStats_nil_map ds :
  V3.cacheUpdated ds = false → V3.percentile (V3.cached ds) = None →
  V3.GetCachedStats ds = Panic.
Proof.
  intros Hupd Hmap.
  unfold V3.GetCachedStats, mbind, M_bind, get, modify, mret, M_ret.
  rewrite Hupd. destruct (V3_GetMean_Ok ds) as [v ->].
  match goal with |- context [V3.GetMedian ?s] =>
    pose proof (V3_GetMedian_preserves s) as H1;
    destruct (V3.GetMedian s) as [a s1|]; [|done]
  end.
  cbn in H1. subst s1.
  match goal with |- context [V3.GetPercentile ?q ?s] =>
    pose proof (V3_GetPercentile_preserves q s) as H2;
    destruct (V3.GetPercentile q s) as [a2 s2|]; [|done]
  end.
  cbn in H2. subst s2.
  unfold V3.cached_percentile_assign. cbn. by rewrite Hmap.
Qed.

(** The queries do not read the cached snapshot. *)
Lemma V3_GetMedian_set_cached ca ds v :
  V3.GetMedian ds = Ok v ds →
  V3.GetMedian (V3.set_cached ca ds) = Ok v (V3.set_cached ca ds).
Proof.
  destruct ds as [ts c mn mx lo up rb bc ca0 cu cpm].
  unfold V3.GetMedian, heap.Peek, mbind, M_bind, get, mret, M_ret, lift, panic.
  cbn -[bool_decide]. intros H.
  repeat case_bool_decide; try done; destruct (lo !! 0), (up !! 0);
    unfold mret, M_ret in *; by simplify_eq.
Qed.

Lemma V3_GetPercentile_set_cached ca p ds v :
  V3.GetPercentile p ds = Ok v ds →
  V3.GetPercentile p (V3.set_cached ca ds) = Ok v (V3.set_cached ca ds).
Proof.
  destruct ds as [ts c mn mx lo up rb bc ca0 cu cpm].
  unfold V3.GetPercentile, V3.on_recentData, mbind, M_bind, mret, M_ret,
    lift, panic.
  pose proof (V3_GetSorted_preserves rb) as Hrb. cbn [V3.recentData V3.set_cached].
  destruct (V3.RingBuffer.GetSorted rb) as [sorted rb'|]; [|done].
  cbn in Hrb. subst rb'. cbn -[bool_decide]. intros H.
  case_bool_decide; [by simplify_eq|].
  case_match; unfold mret, M_ret in *; by simplify_eq.
Qed.

Lemma V3_set_cached_twice ca ca' ds :
  V3.set_cached ca (V3.set_cached ca' ds) = V3.set_cached ca ds.
Proof. done. Qed.

(** With an invalid cache and a [percentile] map that is not nil, on a
    state in which the four queries return, [GetCachedStats] stores the
    fresh mean, median and the two percentiles, marks the cache valid and
    returns the new snapshot. *)
Lemma V3_GetCachedStats_recompute ds m a b x y :
  V3.cacheUpdated ds = false → V3.percentile (V3.cached ds) = Some m →
  V3.GetMean ds = Ok a ds → V3.GetMedian ds = Ok b ds →
  V3.GetPercentile (Qc_of_Z 95) ds = Ok x ds →
  V3.GetPercentile (Qc_of_Z 99) ds = Ok y ds →
  let fresh := V3.mkCachedStats a b (Some (<[99%Z := y]> (<[95%Z := x]> m))) in
  V3.GetCachedStats ds
  = Ok fresh (V3.set_cacheUpdated true (V3.set_cached fresh ds)).
Proof.
  intros Hupd Hmap Hmean Hmed H95 H99 fresh.
  unfold V3.GetCachedStats, mbind, M_bind, get, modify, mret, M_ret.
  rewrite Hupd, Hmean.
  erewrite V3_GetMedian_set_cached by done.
  cbn [V3.cached V3.set_cached V3.mean V3.median V3.percentile].
  rewrite V3_set_cached_twice.
  erewrite V3_GetPercentile_set_cached by done.
  unfold V3.cached_percentile_assign.
  cbn [V3.cached V3.set_cached V3.mean V3.median V3.percentile].
  rewrite Hmap, V3_set_cached_twice.
  erewrite V3_GetPercentile_set_cached by done.
  cbn [V3.cached V3.set_cached V3.mean V3.median V3.percentile].
  by rewrite V3_set_cached_twice.
Qed.

(** ** The median of the two heaps *)

(** The root of [lower] is the last element of its sort, the root of
    [upper] the first element of its sort. *)
Lemma MaxHeap_Peek_sorted_last h top :
  heap_ordered MaxHeap_less h → heap.Peek h = Some top →
  sort_Float64s h !!! (length h - 1) = top.
Proof.
  intros Hh Htop.
  assert (Hlen : 0 < length h) by (apply lookup_lt_Some in Htop; lia).
  set (z := sort_Float64s h !!! (length h - 1)).
  assert (Hz : z ∈ h).
  { apply sort_Float64s_elem_of, list_elem_of_lookup. exists (length h - 1).
    apply list_lookup_lookup_total_lt. rewrite sort_Float64s_length. lia. }
  apply (anti_symm Qcle).
  - by eapply MaxHeap_Peek_max.
  - subst z. rewrite <-(sort_Float64s_length h) at 1.
    apply Sorted_last_max; [apply sort_Float64s_Sorted|].
    apply sort_Float64s_elem_of, list_elem_of_lookup. by exists 0.
Qed.

Lemma MinHeap_Peek_sorted_first h top :
  heap_ordered MinHeap_less h → heap.Peek h = Some top →
  sort_Float64s h !!! 0 = top.
Proof.
  intros Hh Htop.
  assert (Hlen : 0 < length h) by (apply lookup_lt_Some in Htop; lia).
  set (z := sort_Float64s h !!! 0).
  assert (Hz : z ∈ h).
  { apply sort_Float64s_elem_of, list_elem_of_lookup. exists 0.
    apply list_lookup_lookup_total_lt. rewrite sort_Float64s_length. lia. }
  apply (anti_symm Qcle).
  - subst z. apply Sorted_first_min; [apply sort_Float64s_Sorted|].
    apply sort_Float64s_elem_of, list_elem_of_lookup. by exists 0.
  - by eapply MinHeap_Peek_min.
Qed.

(** When the heaps partition [l] and [lower] is as large as [upper] or one
    larger, the two roots give the median of [l]. *)
Lemma heaps_true_median l lo up :
  heaps_inv lo up → lo ++ up ≡ₚ l → l ≠ [] →
  length up ≤ length lo ≤ length up + 1 →
  ∃ a, heap.Peek lo = Some a ∧
       if bool_decide (length up < length lo) then true_median l = a
       else ∃ b, heap.Peek up = Some b ∧
                 true_median l = ((a + b) / Qc_of_Z 2)%Qc.
Proof.
  intros (Hlo & Hup & Hle) Hperm Hne Hbal.
  assert (Hlen : length l = length lo + length up).
  { by rewrite <-Hperm, length_app. }
  assert (0 < length lo) as Hlo_pos.
  { destruct l; [done|]. cbn in Hlen. lia. }
  destruct (lookup_lt_is_Some_2 lo 0 Hlo_pos) as [a Ha]. exists a.
  split; [done|].
  pose proof (MaxHeap_Peek_sorted_last lo a Hlo Ha) as Hlast.
  unfold true_median. rewrite (bool_decide_false (length l = 0)) by lia.
  rewrite <-(sort_Float64s_proper _ _ Hperm), (sort_Float64s_app _ _ Hle).
  rewrite Hlen. case_bool_decide as Hcmp.
  - replace (length lo + length up) with (1 + 2 * length up) by lia.
    rewrite Nat.odd_add_mul_2. change (Nat.odd 1) with true. cbn iota.
    replace ((1 + 2 * length up) / 2) with (length lo - 1) by lia.
    rewrite lookup_total_app_l by (rewrite sort_Float64s_length; lia).
    done.
  - assert (0 < length up) as Hup_pos by lia.
    destruct (lookup_lt_is_Some_2 up 0 Hup_pos) as [b Hb]. exists b.
    split; [done|].
    pose proof (MinHeap_Peek_sorted_first up b Hup Hb) as Hfirst.
    replace (length lo + length up) with (0 + 2 * length lo) by lia.
    rewrite Nat.odd_add_mul_2. change (Nat.odd 0) with false. cbn iota.
    replace ((0 + 2 * length lo) / 2) with (length lo) by lia.
    rewrite lookup_total_app_l by (rewrite sort_Float64s_length; lia).
    rewrite lookup_total_app_r by (rewrite sort_Float64s_length; lia).
    rewrite sort_Float64s_length, Nat.sub_diag.
    by rewrite Hlast, Hfirst.
Qed.

(** The single-mutex version computes the median of the whole history. *)
Lemma Part001_GetMedian_true_median l :
  (Z.of_nat (length l) < 2 ^ 63)%Z →
  value ((Part001.feed l;; Part001.GetMedian) Part001.NewDataStreamStats)
  = Some (true_median l).
Proof.
  intros Hlen. destruct (Part001_feed_new l) as (ds & Hrun & Hinv).
  destruct Hinv as (_ & Hcnt & _ & _ & Hheaps & Hbal & Hperm & _).
  rewrite (bind_Ok _ _ _ _ _ Hrun).
  rewrite wrap64_small in Hcnt by lia.
  unfold Part001.GetMedian, mbind, M_bind, get, mret, M_ret, lift.
  rewrite Hcnt. destruct (decide (l = [])) as [->|Hne].
  - by rewrite bool_decide_true.
  - rewrite bool_decide_false by (destruct l; [done|cbn; lia]).
    destruct (heaps_true_median l _ _ Hheaps Hperm Hne Hbal) as (a & Ha & Hmed).
    rewrite Ha. case_bool_decide.
    + cbn. by rewrite Hmed.
    + destruct Hmed as (b & Hb & Hmed). rewrite Hb. cbn. by rewrite Hmed.
Qed.

(** The single-mutex version keeps the two heaps balanced and ordered. *)
Lemma Part001_heap_balance l :
  ∃ ds, Part001.feed l Part001.NewDataStreamStats = Ok () ds ∧
        length (Part001.upper ds) ≤ length (Part001.lower ds)
          ≤ length (Part001.upper ds) + 1 ∧
        ∀ a b, a ∈ Part001.lower ds → b ∈ Part001.upper ds → (a ≤ b)%Qc.
Proof.
  destruct (Part001_feed_new l) as (ds & Hrun & Hinv).
  destruct Hinv as (_ & _ & _ & _ & (_ & _ & Hle) & Hbal & _).
  by exists ds.
Qed.

(** In [V3] the heaps stay ordered (every value of [lower] is at most every
    value of [upper]) and hold the whole history, whatever their sizes. *)
Lemma V3_heaps_ordered c l :
  0 < c →
  ∃ ds, V3.feed l (V3.NewDataStreamStats c) = Ok () ds ∧
        V3.lower ds ++ V3.upper ds ≡ₚ l ∧
        ∀ a b, a ∈ V3.lower ds → b ∈ V3.upper ds → (a ≤ b)%Qc.
Proof.
  intros Hc. destruct (V3_feed_new c l Hc) as (ds & Hrun & Hinv).
  destruct Hinv as (_ & _ & _ & _ & (_ & _ & Hle) & _ & _ & Hperm & _).
  by exists ds.
Qed.

(** On every state reached by [feed] from a new engine with at least one
    slot, the queries return (for [GetPercentile], with a rank of at most
    100), so that what is proved of the values they return is not vacuous. *)
Lemma V3_queries_return c l p ds :
  0 < c → (Z.of_nat (length l) < 2 ^ 63)%Z → (p ≤ Qc_of_Z 100)%Qc →
  V3.feed l (V3.NewDataStreamStats c) = Ok () ds →
  (∃ v, V3.GetMean ds = Ok v ds) ∧ (∃ v, V3.GetMedian ds = Ok v ds) ∧
  V3.GetMin ds = Ok (V3.minVal ds) ds ∧ V3.GetMax ds = Ok (V3.maxVal ds) ds ∧
  (∃ v, V3.GetPercentile p ds = Ok v ds).
Proof.
  intros Hc Hlen Hp Hrun.
  destruct (V3_feed_new c l Hc) as (ds' & Hrun' & Hinv).
  rewrite Hrun in Hrun'. simplify_eq.
  destruct Hinv as (_ & Hcnt & _ & _ & _ & Hemp & _ & Hperm & Hring & _).
  split_and!; [apply V3_GetMean_Ok| |done|done|].
  - clear Hring. destruct ds' as [ts cn mn mx lo up rb bc ca cu cpm].
    cbn in Hcnt, Hemp, Hperm.
    unfold V3.GetMedian, heap.Peek, mbind, M_bind, get, mret, M_ret, lift,
      panic.
    cbn -[bool_decide]. case_bool_decide as Hc0; [eauto|].
    destruct lo as [|a lo].
    { destruct (Hemp eq_refl) as [-> _]. apply Permutation_nil_l in Hperm.
      subst l. rewrite wrap64_small in Hcnt by (cbn; lia). done. }
    cbn -[bool_decide]. case_bool_decide as Hsz; [eauto|].
    destruct up as [|b up]; [cbn in Hsz; lia|]. cbn. eauto.
  - destruct (ring_inv_sorted _ _ _ Hring) as (Hsz & Hle & _).
    rewrite V3_GetPercentile_unfold by done. cbn zeta.
    case_bool_decide as Hk; [eauto|].
    pose proof (percentile_index_in_range p
                  (V3.RingBuffer.size (V3.recentData ds')) ltac:(lia) Hp).
    rewrite (list_lookup_lookup_total_lt (sort_Float64s _));
      [eauto|rewrite sort_Float64s_length, length_take; lia].
Qed.

(** ** The worked examples

    Capacity 3 and the values 5, 1, 9, 2: the window holds 1, 9, 2, so
    that [GetPercentile 100] is 9; the mean is 17/4, the minimum 1 and the
    maximum 9.  Capacity 3 and the values 9, 1, 2, 3: the 9 has been
    evicted, so that [GetPercentile 100] is 3 while [GetMax] is 9. *)
Example example_engine_queries :
  ring_window (V3.recentData example_engine) = obs [1; 9; 2]%Z ∧
  value (V3.GetPercentile (Qc_of_Z 100) example_engine) = Some (Qc_of_Z 9) ∧
  value (V3.GetMean example_engine) = Some (Qc_of_Z 17 / Qc_of_Z 4)%Qc ∧
  value (V3.GetMin example_engine) = Some (Fin (Qc_of_Z 1)) ∧
  value (V3.GetMax example_engine) = Some (Fin (Qc_of_Z 9)).
Proof. split_and!; vm_compute; reflexivity. Qed.

Example evicted_maximum :
  value ((V3.feed (obs [9; 1; 2; 3]%Z);; V3.GetPercentile (Qc_of_Z 100))
           (V3.NewDataStreamStats 3)) = Some (Qc_of_Z 3) ∧
  value ((V3.feed (obs [9; 1; 2; 3]%Z);; V3.GetMax) (V3.NewDataStreamStats 3))
  = Some (Fin (Qc_of_Z 9)).
Proof. split_and!; vm_compute; reflexivity. Qed.

Example empty_engine_queries :
  value (V3.GetMean (V3.NewDataStreamStats 3)) = Some 0%Qc ∧
  value (V3.GetMin (V3.NewDataStreamStats 3)) = Some PosInf ∧
  value (V3.GetMax (V3.NewDataStreamStats 3)) = Some NegInf ∧
  value (V3.GetMedian (V3.NewDataStreamStats 3)) = Some 0%Qc ∧
  value (V3.GetPercentile (Qc_of_Z 50) (V3.NewDataStreamStats 3)) = Some 0%Qc.
Proof. split_and!; vm_compute; reflexivity. Qed.

(** ** binary64: the order *)

(** On values that are not NaN the comparison is a total preorder (the two
    zeros compare equal). *)
Lemma SFcompare_antisym x y c :
  SFcompare x y = Some c → SFcompare y x = Some (CompOpp c).
Proof.
  destruct x as [sx|sx| |sx mx ex], y as [sy|sy| |sy my ey]; cbn;
    try destruct sx; try destruct sy; cbn; intros H; simplify_eq; try done.
  - rewrite (Z.compare_antisym ey ex).
    destruct (ey ?= ex)%Z eqn:He; cbn; try done.
    change (Pos.compare_cont Eq mx my) with (mx ?= my)%positive.
    change (Pos.compare_cont Eq my mx) with (my ?= mx)%positive.
    rewrite (Pos.compare_antisym my mx). by destruct (my ?= mx)%positive.
  - rewrite (Z.compare_antisym ey ex).
    destruct (ey ?= ex)%Z eqn:He; cbn; try done.
    change (Pos.compare_cont Eq mx my) with (mx ?= my)%positive.
    change (Pos.compare_cont Eq my mx) with (my ?= mx)%positive.
    rewrite (Pos.compare_antisym my mx). by destruct (my ?= mx)%positive.
Qed.

Lemma SFcompare_total x y :
  F64.is_nan x = false → F64.is_nan y = false → is_Some (SFcompare x y).
Proof. destruct x, y; cbn; try done; eauto. Qed.

Lemma F64_ltb_not_nan x y :
  F64.ltb x y = true → F64.is_nan x = false ∧ F64.is_nan y = false.
Proof. by destruct x, y. Qed.

Lemma F64_leb_refl x : F64.is_nan x = false → F64.leb x x = true.
Proof.
  destruct x as [s|s| |s m e]; try done; try by destruct s.
  intros _. unfold F64.leb, SFleb. cbn.
  rewrite Z.compare_refl.
  change (Pos.compare_cont Eq m m) with (m ?= m)%positive.
  rewrite Pos.compare_refl. by destruct s.
Qed.

Lemma F64_nltb_leb x y :
  F64.is_nan x = false → F64.is_nan y = false →
  F64.ltb x y = false → F64.leb y x = true.
Proof.
  intros Hx Hy. unfold F64.ltb, F64.leb, SFltb, SFleb.
  destruct (SFcompare_total x y Hx Hy) as [c Hc].
  rewrite Hc, (SFcompare_antisym _ _ _ Hc). by destruct c.
Qed.

Lemma F64_ltb_leb x y : F64.ltb x y = true → F64.leb x y = true.
Proof. unfold F64.ltb, F64.leb, SFltb, SFleb. by repeat case_match. Qed.

Lemma F64_leb_trans x y z :
  F64.leb x y = true → F64.leb y z = true → F64.leb x z = true.
Proof.
  unfold F64.leb, SFleb.
  destruct x as [sx|sx| |sx mx ex], y as [sy|sy| |sy my ey],
    z as [sz|sz| |sz mz ez]; cbn; try done;
    try destruct sx; try destruct sy; try destruct sz; cbn; try done.
  all: change (Pos.compare_cont Eq ?a ?b) with (a ?= b)%positive.
  all: destruct (Z.compare_spec ex ey), (Z.compare_spec ey ez),
         (Z.compare_spec ex ez); try done; try lia.
  all: destruct (Pos.compare_spec mx my), (Pos.compare_spec my mz),
         (Pos.compare_spec mx mz); try done; try lia.
Qed.

(** ** binary64: small integers

    An integer below 2^53 is a binary64, the product of 1 and a normal
    number is that number, and [Ceil] and [int] give the integer back. *)

Lemma digits2_pos_iter_xO k q :
  digits2_pos (Pos.iter xO k q) = (digits2_pos k + q)%positive.
Proof.
  induction q as [|q IH] using Pos.peano_ind.
  - cbn. lia.
  - rewrite Pos.iter_succ. cbn. rewrite IH. lia.
Qed.

Lemma Zpos_iter_xO k q :
  Z.pos (Pos.iter xO k q) = (Z.pos k * 2 ^ Z.pos q)%Z.
Proof.
  induction q as [|q IH] using Pos.peano_ind.
  - cbn. lia.
  - rewrite Pos.iter_succ, Pos2Z.inj_succ, Z.pow_succ_r by lia.
    rewrite Pos2Z.inj_xO, IH. lia.
Qed.

Lemma digits2_pos_lower k : (2 ^ (Z.pos (digits2_pos k) - 1) ≤ Z.pos k)%Z.
Proof.
  induction k as [k IH|k IH|]; cbn [digits2_pos]; [| |done].
  - rewrite Pos2Z.inj_succ.
    replace (Z.succ (Z.pos (digits2_pos k)) - 1)%Z
      with (Z.succ (Z.pos (digits2_pos k) - 1)) by lia.
    rewrite Z.pow_succ_r by lia. lia.
  - rewrite Pos2Z.inj_succ.
    replace (Z.succ (Z.pos (digits2_pos k)) - 1)%Z
      with (Z.succ (Z.pos (digits2_pos k) - 1)) by lia.
    rewrite Z.pow_succ_r by lia. lia.
Qed.

(** Rounding leaves a mantissa of 53 bits as it is. *)
Lemma binary_round_aux_canonical s m e :
  digits2_pos m = 53%positive → (-1074 ≤ e ≤ 971)%Z →
  binary_round_aux F64.prec F64.emax s (Z.pos m) e loc_Exact
  = S754_finite s m e.
Proof.
  intros Hd He.
  unfold binary_round_aux, shr_fexp, fexp, emin, F64.prec, F64.emax.
  cbn [Zdigits2 shr_record_of_loc]. rewrite Hd.
  replace (Z.max (53 + e - 53) (3 - 1024 - 53) - e)%Z with 0%Z by lia.
  cbn [shr shr_m loc_of_shr_record round_nearest_even Zdigits2
       shr_record_of_loc].
  rewrite Hd.
  replace (Z.max (53 + e - 53) (3 - 1024 - 53) - e)%Z with 0%Z by lia.
  cbn [shr shr_m]. replace (e <=? 1024 - 53)%Z with true; [done|].
  symmetry. apply Z.leb_le. lia.
Qed.

(** [float64(z)] for [0 < z < 2^53] is [z]: a mantissa of 53 bits with
    an exponent between -52 and 0. *)
Lemma F64_of_int_small z :
  (0 < z < 2 ^ 53)%Z →
  ∃ m e, F64.of_int z = S754_finite false m e ∧
         digits2_pos m = 53%positive ∧ (-52 ≤ e ≤ 0)%Z ∧
         Z.pos m = (z * 2 ^ (- e))%Z.
Proof.
  intros Hz. destruct z as [|k|k]; [lia| |lia].
  assert (Z.pos (digits2_pos k) ≤ 53)%Z as Hd.
  { pose proof (digits2_pos_lower k) as Hlow.
    destruct (Z.le_gt_cases (Z.pos (digits2_pos k)) 53) as [|Hgt]; [done|].
    assert (2 ^ 53 ≤ 2 ^ (Z.pos (digits2_pos k) - 1))%Z
      by (apply Z.pow_le_mono_r; lia).
    lia. }
  unfold F64.of_int, binary_normalize, binary_round, shl_align, fexp, emin,
    F64.prec, F64.emax.
  replace (Z.max (Z.pos (digits2_pos k) + 0 - 53) (3 - 1024 - 53) - 0)%Z
    with (Z.pos (digits2_pos k) - 53)%Z by lia.
  destruct (Z.pos (digits2_pos k) - 53)%Z as [|q|q] eqn:Hq; [|lia|].
  - exists k, 0%Z. split; [|split; [|split]]; [|lia|lia|cbn; lia].
    apply (binary_round_aux_canonical false k 0); lia.
  - exists (Pos.iter xO k q), (Z.pos (digits2_pos k) - 53)%Z.
    replace (Z.max (Z.pos (digits2_pos k) + 0 - 53) (3 - 1024 - 53))%Z
      with (Z.pos (digits2_pos k) - 53)%Z by lia.
    split; [|split; [|split]].
    + apply (binary_round_aux_canonical false); [|lia].
      rewrite digits2_pos_iter_xO. lia.
    + rewrite digits2_pos_iter_xO. lia.
    + lia.
    + rewrite Zpos_iter_xO. f_equal. f_equal. lia.
Qed.



(** ** The aggregate in binary64 *)

Lemma Aggregate_inv_new : Aggregate_inv [] V3_float64.NewAggregate.
Proof.
  split_and!; try done.
  - split_and!; [by left|done|]. by intros x Hx%elem_of_nil.
  - split_and!; [by left|done|]. by intros x Hx%elem_of_nil.
Qed.

Lemma min64_inv_step hist m x :
  min64_inv hist m →
  min64_inv (hist ++ [x]) (if F64.ltb x m then x else m).
Proof.
  intros (Hin & Hnan & Hmin). destruct (F64.ltb x m) eqn:Hlt.
  - destruct (F64_ltb_not_nan _ _ Hlt) as [Hx _].
    split_and!;
      [right; apply elem_of_app; right; by apply list_elem_of_singleton
      |done|].
    intros y [Hy| ->%list_elem_of_singleton]%elem_of_app Hny.
    + eapply F64_leb_trans; [by apply F64_ltb_leb|by apply Hmin].
    + by apply F64_leb_refl.
  - split_and!;
      [destruct Hin; [by left|right; apply elem_of_app; by left]|done|].
    intros y [Hy| ->%list_elem_of_singleton]%elem_of_app Hny.
    + by apply Hmin.
    + by apply F64_nltb_leb.
Qed.

Lemma max64_inv_step hist m x :
  max64_inv hist m →
  max64_inv (hist ++ [x]) (if F64.ltb m x then x else m).
Proof.
  intros (Hin & Hnan & Hmax). destruct (F64.ltb m x) eqn:Hlt.
  - destruct (F64_ltb_not_nan _ _ Hlt) as [_ Hx].
    split_and!;
      [right; apply elem_of_app; right; by apply list_elem_of_singleton
      |done|].
    intros y [Hy| ->%list_elem_of_singleton]%elem_of_app Hny.
    + eapply F64_leb_trans; [by apply Hmax|by apply F64_ltb_leb].
    + by apply F64_leb_refl.
  - split_and!;
      [destruct Hin; [by left|right; apply elem_of_app; by left]|done|].
    intros y [Hy| ->%list_elem_of_singleton]%elem_of_app Hny.
    + by apply Hmax.
    + by apply F64_nltb_leb.
Qed.

Lemma Aggregate_AddNumber_inv hist a x :
  Aggregate_inv hist a →
  ∃ a', V3_float64.AddNumber_stats x a = Ok () a' ∧
        Aggregate_inv (hist ++ [x]) a'.
Proof.
  intros (Hsum & Hcnt & Hmin & Hmax).
  destruct a as [ts cn mn mx]. cbn in *.
  eexists. split; [reflexivity|].
  pose proof (min64_inv_step _ _ x Hmin) as Hmin'.
  pose proof (max64_inv_step _ _ x Hmax) as Hmax'.
  assert (wrap64 (cn + 1) = wrap64 (Z.of_nat (length (hist ++ [x]))))
    as Hcnt'.
  { rewrite Hcnt, wrap64_succ, length_app. f_equal. cbn. lia. }
  assert (F64.add ts x = float64_sum (hist ++ [x])) as Hsum'.
  { rewrite Hsum. unfold float64_sum. by rewrite foldl_app. }
  unfold modify. cbn.
  destruct (F64.ltb x mn); cbn; destruct (F64.ltb mx x); by split_and!.
Qed.

Lemma Aggregate_feed_inv l : ∀ hist a,
  Aggregate_inv hist a →
  ∃ a', V3_float64.feed l a = Ok () a' ∧ Aggregate_inv (hist ++ l) a'.
Proof.
  induction l as [|x l IH]; intros hist a Hinv.
  - exists a. by rewrite app_nil_r.
  - destruct (Aggregate_AddNumber_inv hist a x Hinv) as (a1 & Hrun & Hinv1).
    destruct (IH _ _ Hinv1) as (a2 & Hrun2 & Hinv2).
    exists a2. split.
    + cbn. unfold mbind, M_bind. by rewrite Hrun.
    + by rewrite (cons_middle x hist l), (assoc_L (++)).
Qed.

Lemma Aggregate_feed_new l :
  ∃ a, V3_float64.feed l V3_float64.NewAggregate = Ok () a ∧
       Aggregate_inv l a.
Proof. apply (Aggregate_feed_inv l [] _ Aggregate_inv_new). Qed.

(** ** The rank index in binary64 *)



Lemma percentile_index64_0 n :
  (Z.of_nat n < 2 ^ 53)%Z → V3_float64.percentile_index F64.zero n = 0%Z.
Proof.
  intros Hn. unfold V3_float64.percentile_index.
  change (F64.div F64.zero (F64.of_int 100)) with F64.zero.
  destruct n as [|n]; [done|].
  destruct (F64_of_int_small (Z.of_nat (S n))) as (m & e & -> & _); [lia|].
  done.
Qed.

(** [GetPercentile] on a state whose window lies within the buffer. *)
Lemma V3_GetPercentile64_unfold p ds :
  let rb := V3.recentData ds in
  let sorted :=
    sort_Float64s (take (V3.RingBuffer.size rb) (V3.RingBuffer.data rb)) in
  V3.RingBuffer.size rb ≤ length (V3.RingBuffer.data rb) →
  V3_float64.GetPercentile p ds =
    if bool_decide (V3.RingBuffer.size rb = 0) then Ok 0%Qc ds
    else match V3_float64.index_int sorted
                 (V3_float64.percentile_index p (V3.RingBuffer.size rb))
         with
         | Some v => Ok v ds
         | None => Panic
         end.
Proof.
  destruct ds as [ts c mn mx lo up [data h sz cp] bc ca cu cpm]. cbn.
  intros Hsz.
  unfold V3_float64.GetPercentile, V3.on_recentData, V3.RingBuffer.GetSorted.
  unfold mbind, M_bind, mret, M_ret, lift, panic. cbn.
  rewrite bool_decide_true by done. cbn.
  rewrite sort_Float64s_length, length_take, Nat.min_l by done.
  case_bool_decide; [done|]. by case_match.
Qed.

(** ** Goroutines *)

(** A goroutine that runs [AddNumber] on its own does what the method
    does. *)
Lemma Locks_AddNumber_alone num ds :
  Locks.alone (V3_locks.AddNumber num) ds = V3.AddNumber num ds.
Proof.
  unfold V3_locks.AddNumber, Locks.alone, V3_locks.AddNumber_stats,
    V3_locks.AddNumber_heaps, V3.AddNumber.
  unfold mbind, M_bind, modify, get, mret, M_ret. cbn beta.
  set (s4 := if xltb _ _ then _ else _).
  destruct (bool_decide (length (V3.lower s4) = 0)).
  - destruct (V3.balanceHeaps _) as [[] s5|]; [|done].
    destruct (V3.on_recentData _ s5) as [[] s6|]; done.
  - unfold lift, panic, mret, M_ret.
    destruct (heap.Peek (V3.lower s4)) as [top|]; [|done].
    destruct (bool_decide (num ≤ top)%Qc).
    + destruct (V3.balanceHeaps _) as [[] s5|]; [|done].
      destruct (V3.on_recentData _ s5) as [[] s6|]; done.
    + destruct (V3.balanceHeaps _) as [[] s5|]; [|done].
      destruct (V3.on_recentData _ s5) as [[] s6|]; done.
Qed.

(** The same for [AddNumber] of part_001, cut into its three steps. *)
Lemma Part001_locks_AddNumber_alone num ds :
  Locks.alone (Part001_locks.AddNumber num) ds = Part001.AddNumber num ds.
Proof.
  unfold Part001_locks.AddNumber, Locks.alone, Part001_locks.AddNumber_stats,
    Part001_locks.AddNumber_heaps, Part001_locks.AddNumber_sorted,
    Part001.AddNumber.
  unfold mbind, M_bind, modify, get, mret, M_ret. cbn beta.
  set (s4 := if xltb _ _ then _ else _).
  repeat case_match; simplify_eq; done.
Qed.

Lemma Part001_GetMedian_preserves ds : preserves (Part001.GetMedian ds) ds.
Proof.
  unfold Part001.GetMedian, heap.Peek, mbind, M_bind, get, mret, M_ret,
    lift, panic.
  repeat case_bool_decide; try done;
    by destruct (Part001.lower ds !! 0), (Part001.upper ds !! 0).
Qed.

(** Every step keeps two goroutines of part_001 within [Part001_reached]:
    the mutex admits one of them at a time. *)
Ltac dec_in H :=
  repeat first
    [ rewrite (bool_decide_true (_ ∨ _)) in H by lia
    | rewrite (bool_decide_false (_ ∨ _)) in H by lia
    | rewrite (bool_decide_true (_ ∈ _)) in H by set_solver
    | rewrite (bool_decide_false (_ ∈ _)) in H by set_solver ].

Ltac dec_goal :=
  repeat first
    [ rewrite (bool_decide_true (_ ∨ _)) by lia
    | rewrite (bool_decide_false (_ ∨ _)) by lia ].

Ltac reach i j :=
  exists i, j; cbn [Locks.threads Locks.held Locks.store];
  split; [reflexivity|];
  split; [lia|]; split; [lia|]; split; [lia|];
  split; [dec_goal; reflexivity|];
  cbn [take Part001_locks.AddNumber Locks.alone];
  unfold mbind, M_bind, mret, M_ret in *;
  simplify_eq; repeat (case_match; simplify_eq); done.

Lemma Part001_reached_step {A} num (q : M Part001.DataStreamStats A) ds0
    k cfg cfg' :
  (∀ s, preserves (q s) s) →
  Part001_reached num q ds0 cfg → Locks.step k cfg = Locks.Next cfg' →
  Part001_reached num q ds0 cfg'.
Proof.
  intros Hq (i & j & Hth & Hi & Hj & Hex & Hheld & Hst) Hstep.
  destruct cfg as [held st th]. cbn in Hth, Hheld, Hst. subst th held.
  unfold Locks.step in Hstep.
  cbn [Locks.threads Locks.held Locks.store] in Hstep.
  destruct k as [|[|k]]; [| |done].
  - (* a step of AddNumber *)
    destruct i as [|[|[|[|[|[|i]]]]]]; try lia;
      destruct j as [|[|[|[|j]]]]; try lia;
      cbn in Hstep, Hst; try done; try (exfalso; lia);
      dec_in Hstep; cbn [filter list_filter] in Hstep; try done.
    all: repeat case_match; simplify_eq.
    all: first [reach 1 0|reach 1 3|reach 2 0|reach 2 3|reach 3 0|reach 3 3
               |reach 4 0|reach 4 3|reach 5 0|reach 5 3].
  - (* a step of the other method *)
    destruct i as [|[|[|[|[|[|i]]]]]]; try lia;
      destruct j as [|[|[|[|j]]]]; try lia;
      cbn in Hstep, Hst; try done; try (exfalso; lia);
      dec_in Hstep; cbn [filter list_filter] in Hstep; try done.
    all: try (pose proof (Hq st) as Hpres; destruct (q st) as [a s|];
              [cbn in Hpres; subst s|done]).
    all: simplify_eq.
    all: first [reach 0 1|reach 0 2|reach 0 3|reach 5 1|reach 5 2|reach 5 3].
Qed.

Lemma Part001_reached_run {A} num (q : M Part001.DataStreamStats A) ds0
    sched : ∀ cfg cfg',
  (∀ s, preserves (q s) s) →
  Part001_reached num q ds0 cfg → Locks.run sched cfg = Locks.Next cfg' →
  Part001_reached num q ds0 cfg'.
Proof.
  induction sched as [|k sched IH]; intros cfg cfg' Hq Hreach Hrun.
  - cbn in Hrun. by simplify_eq.
  - cbn in Hrun. destruct (Locks.step k cfg) as [c1| |] eqn:Hstep; try done.
    eapply IH; [done| |done]. by eapply Part001_reached_step.
Qed.

(** * The claims *)

(** C1, at the failing input.  After 1, 2, 3 the history has the median 2,
    which the single-mutex version returns, but [V3.GetMedian] returns 3/2:
    [upper] holds one value more than [lower] and [GetMedian] averages the
    two roots.  The same happens on the worked example 5, 1, 9, 2, whose
    median is 7/2. *)
Theorem V3_GetMedian_1_2_3 :
  value ((V3.feed (obs [1; 2; 3]%Z);; V3.GetMedian) (V3.NewDataStreamStats 3))
  = Some (Qc_of_Z 3 / Qc_of_Z 2)%Qc ∧
  true_median (obs [1; 2; 3]%Z) = Qc_of_Z 2 ∧
  value ((Part001.feed (obs [1; 2; 3]%Z);; Part001.GetMedian)
           Part001.NewDataStreamStats)
  = Some (Qc_of_Z 2) ∧
  value ((V3.feed (obs [5; 1; 9; 2]%Z);; V3.GetMedian)
           (V3.NewDataStreamStats 3))
  = Some (Qc_of_Z 3 / Qc_of_Z 2)%Qc ∧
  true_median (obs [5; 1; 9; 2]%Z) = (Qc_of_Z 7 / Qc_of_Z 2)%Qc.
Proof. split_and!; vm_compute; reflexivity. Qed.

(** C2, at the failing input.  After 5, 3, 2, 1 the lower heap of [V3]
    holds one value and the upper heap three: each move changes the
    difference of the sizes by two, but the counter by one. *)
Theorem V3_heap_sizes_5_3_2_1 :
  V3_heap_sizes <$>
    state (V3.feed (obs [5; 3; 2; 1]%Z) (V3.NewDataStreamStats 3))
  = Some (1, 3).
Proof. vm_compute. reflexivity. Qed.

(** C3.  On every new engine, after every sequence of [AddNumber] calls,
    [GetCachedStats] panics: [cached.percentile] is a nil map, and the
    recomputation assigns to its entry 95. *)
Theorem V3_GetCachedStats_panics (c : nat) (l : list Qc) :
  (V3.feed l;; V3.GetCachedStats) (V3.NewDataStreamStats c) = Panic.
Proof.
  unfold mbind, M_bind.
  destruct (V3.feed l (V3.NewDataStreamStats c)) as [[] ds|] eqn:Hrun; [|done].
  destruct (V3_feed_cache _ _ _ Hrun) as [Hmap Hupd]; [done..|].
  by apply V3_GetCachedStats_nil_map.
Qed.

(** C4, at the failing schedule.  On a new engine one goroutine calls
    [AddNumber(num)] and another calls [GetMedian()].  [GetMedian] takes
    [heapLock] only, and [AddNumber] updates [count] under [minMaxLock]
    before it takes [heapLock].  In the schedule where [AddNumber] runs up
    to line 91 and [GetMedian] runs next, [GetMedian] holds its lock, reads
    [count = 1] with both heaps still empty, passes the [count == 0] test
    and panics on [lower.Peek()].  Run one after the other, in either
    order, the two calls return (0 before, [num] after, for a capacity
    above 0). *)
Theorem V3_AddNumber_not_atomic (c : nat) (num : Qc) :
  let init :=
    Locks.mkConfig [] (V3.NewDataStreamStats c)
      [V3_locks.AddNumber num; V3_locks.GetMedian] in
  V3.GetMedian (V3.NewDataStreamStats c) = Ok 0%Qc (V3.NewDataStreamStats c) ∧
  (0 < c →
   value ((V3.AddNumber num;; V3.GetMedian) (V3.NewDataStreamStats c))
   = Some num) ∧
  ∃ cfg, Locks.run [0; 0; 1] init = Locks.Next cfg ∧
         Locks.held cfg = [V3_locks.heapLock; V3_locks.minMaxLock] ∧
         V3.count (Locks.store cfg) = 1%Z ∧
         V3.lower (Locks.store cfg) = [] ∧
         V3.upper (Locks.store cfg) = [] ∧
         Locks.step 1 cfg = Locks.Crash.
Proof.
  intros init. split_and!.
  - done.
  - intros Hc. unfold mbind, M_bind. rewrite V3_AddNumber_phases.
    destruct c as [|c]; [lia|].
    unfold V3.RingBuffer.Add, V3.NewDataStreamStats, V3.NewRingBuffer.
    cbn -[bool_decide wrap64 Nat.modulo].
    rewrite (bool_decide_true (0 < S _)) by lia.
    rewrite (bool_decide_false (S c = 0)) by lia.
    by vm_compute.
  - eexists. split; [reflexivity|]. done.
Qed.

(** C5, at the failing input.  After 1, 2, 3 the counter scheme of [V3]
    leaves one value in [lower] and two in [upper] and [GetMedian] returns
    3/2; the size comparison of the single-mutex version leaves two and
    one, and [GetMedian] returns 2. *)
Theorem balance_schemes_differ_1_2_3 :
  V3_heap_sizes <$>
    state (V3.feed (obs [1; 2; 3]%Z) (V3.NewDataStreamStats 3))
  = Some (1, 2) ∧
  Part001_heap_sizes <$>
    state (Part001.feed (obs [1; 2; 3]%Z) Part001.NewDataStreamStats)
  = Some (2, 1) ∧
  value ((V3.feed (obs [1; 2; 3]%Z);; V3.GetMedian) (V3.NewDataStreamStats 3))
  = Some (Qc_of_Z 3 / Qc_of_Z 2)%Qc ∧
  value ((Part001.feed (obs [1; 2; 3]%Z);; Part001.GetMedian)
           Part001.NewDataStreamStats)
  = Some (Qc_of_Z 2).
Proof. split_and!; vm_compute; reflexivity. Qed.

(** C6 fails as stated: [GetMean] depends on the arrival order.  The
    running sum is rounded after every addition: 1e16 + 1 is 1e16 in
    binary64, so that 1e16, 1, -1e16 has the mean 0, while the same values
    in the order 1e16, -1e16, 1 have the mean 1/3 (rounded), which is
    their arithmetic mean. *)
Lemma V3_GetMean_depends_on_order :
  let a := F64.of_int (10 ^ 16) in
  let b := F64.of_int 1 in
  let c := F64.of_int (- 10 ^ 16) in
  [a; c; b] ≡ₚ [a; b; c] ∧
  value ((V3_float64.feed [a; b; c];; V3_float64.GetMean)
           V3_float64.NewAggregate) = Some F64.zero ∧
  value ((V3_float64.feed [a; c; b];; V3_float64.GetMean)
           V3_float64.NewAggregate)
  = Some (F64.div (F64.of_int 1) (F64.of_int 3)) ∧
  F64.div (F64.of_int 1) (F64.of_int 3) ≠ F64.zero.
Proof.
  split_and!; [apply Permutation_skip, Permutation_swap|
               vm_compute; reflexivity..|by vm_compute].
Qed.

(** C6, as the code has it, in binary64.  After fewer than 2^63 values
    [l], [GetMean] returns 0 when [l] is empty and otherwise the quotient
    of the running sum by [float64(count)], where the running sum is
    accumulated in arrival order and rounded after every addition; the
    quotient is rounded once more.  [GetMin] and [GetMax] return +Inf and
    -Inf when [l] holds no number, and otherwise a value of [l] that is at
    most, respectively at least, every value of [l] that is not NaN. *)
Theorem V3_aggregate_float64 (l : list F64.t) :
  (Z.of_nat (length l) < 2 ^ 63)%Z →
  value ((V3_float64.feed l;; V3_float64.GetMean) V3_float64.NewAggregate)
  = Some (if decide (l = []) then F64.zero
          else F64.div (float64_sum l) (F64.of_int (Z.of_nat (length l)))) ∧
  ∃ lo hi,
    value ((V3_float64.feed l;; V3_float64.GetMin) V3_float64.NewAggregate)
    = Some lo ∧
    value ((V3_float64.feed l;; V3_float64.GetMax) V3_float64.NewAggregate)
    = Some hi ∧
    min64_inv l lo ∧ max64_inv l hi.
Proof.
  intros Hlen. destruct (Aggregate_feed_new l) as (a & Hrun & Hinv).
  rewrite !(bind_Ok _ _ _ _ _ Hrun).
  destruct Hinv as (Hsum & Hcnt & Hmin & Hmax).
  rewrite wrap64_small in Hcnt by lia. split.
  - unfold V3_float64.GetMean, mbind, M_bind, get, mret, M_ret.
    rewrite Hcnt, Hsum. destruct l as [|x l].
    + by rewrite bool_decide_true.
    + rewrite bool_decide_false by (cbn; lia). done.
  - by exists (V3_float64.minVal a), (V3_float64.maxVal a).
Qed.

Lemma V3_aggregate_float64_witness :
  (Z.of_nat (length (F64.of_int <$> [5; 1; 9; 2]%Z)) < 2 ^ 63)%Z ∧
  value ((V3_float64.feed (F64.of_int <$> [5; 1; 9; 2]%Z);;
          V3_float64.GetMean) V3_float64.NewAggregate)
  = Some (if decide (F64.of_int <$> [5; 1; 9; 2]%Z = []) then F64.zero
          else F64.div (float64_sum (F64.of_int <$> [5; 1; 9; 2]%Z))
                 (F64.of_int
                    (Z.of_nat (length (F64.of_int <$> [5; 1; 9; 2]%Z))))).
Proof.
  split; [vm_compute; reflexivity|].
  refine (proj1 (V3_aggregate_float64 (F64.of_int <$> [5; 1; 9; 2]%Z) _)).
  vm_compute; reflexivity.
Defined.






(** C9 fails as stated: on the engine of the worked example the rank 0 is
    not rejected; [GetPercentile 0] returns 1, the smallest value of the
    window. *)
Lemma V3_GetPercentile_rank_0_returns :
  V3.GetPercentile (Qc_of_Z 0) example_engine ≠ Panic ∧
  value (V3.GetPercentile (Qc_of_Z 0) example_engine) = Some (Qc_of_Z 1).
Proof. split; [by vm_compute|vm_compute; reflexivity]. Qed.

(** Far below 0 the clamp is missed.  For the rank [-100 * 2^63] and a
    window of one value the product [(p / 100) * k] is [-2^63], which
    [int] holds; the subtraction of 1 wraps to [2^63 - 1], the test
    [index < 0] fails and [sorted[index]] is out of range. *)
Lemma V3_GetPercentile_rank_wraps :
  V3_float64.percentile_index (F64.of_int (- 100 * 2 ^ 63)) 1
  = (2 ^ 63 - 1)%Z ∧
  (V3.feed (obs [5]%Z);;
   V3_float64.GetPercentile (F64.of_int (- 100 * 2 ^ 63)))
    (V3.NewDataStreamStats 3) = Panic.
Proof. split; vm_compute; reflexivity. Qed.

(** C9, as the code has it.  [GetPercentile] rejects no rank by a check of
    its own.  With an empty window it returns 0 for every rank.  With a
    window of [k > 0] values:
    - a rank [p <= 0] has its index clamped to 0 and the smallest value of
      the window is returned, as long as the product [(p / 100) * k] is at
      least [-2^62], which keeps the rounded product inside [int64]
      (below, the index wraps: [V3_GetPercentile_rank_wraps]); the second
      conjunct is stated with the exact product, the third is the rank 0
      in binary64, for fewer than 2^53 values;
    - a rank [p > 100] indexes past the end of the sorted snapshot, which
      panics. *)
Theorem V3_GetPercentile_invalid_rank (ds : V3.DataStreamStats) (p : Qc)
  (q : F64.t) :
  let rb := V3.recentData ds in
  let window := take (V3.RingBuffer.size rb) (V3.RingBuffer.data rb) in
  let k := V3.RingBuffer.size rb in
  k ≤ length (V3.RingBuffer.data rb) →
  (k = 0 →
   V3.GetPercentile p ds = Ok 0%Qc ds ∧
   V3_float64.GetPercentile q ds = Ok 0%Qc ds) ∧
  (0 < k → (p ≤ 0)%Qc →
   (Qc_of_Z (- 2 ^ 62) ≤ p / Qc_of_Z 100 * float64_of_nat k)%Qc →
   ∃ m, V3.GetPercentile p ds = Ok m ds ∧ m ∈ window ∧
        ∀ x, x ∈ window → (m ≤ x)%Qc) ∧
  (0 < k → (Z.of_nat k < 2 ^ 53)%Z →
   ∃ m, V3_float64.GetPercentile F64.zero ds = Ok m ds ∧ m ∈ window ∧
        ∀ x, x ∈ window → (m ≤ x)%Qc) ∧
  (0 < k → (Qc_of_Z 100 < p)%Qc → V3.GetPercentile p ds = Panic).
Proof.
  intros rb window k Hsz.
  rewrite !V3_GetPercentile_unfold, !V3_GetPercentile64_unfold by done.
  cbn zeta. fold rb. fold window. fold k.
  set (sorted := sort_Float64s window).
  assert (Hlen : length sorted = k).
  { subst sorted window. rewrite sort_Float64s_length, length_take. lia. }
  assert (Hmin : 0 < k →
    ∃ m, sorted !! 0 = Some m ∧ m ∈ window ∧
         ∀ x, x ∈ window → (m ≤ x)%Qc).
  { intros Hk. exists (sorted !!! 0). split_and!.
    - apply list_lookup_lookup_total_lt. lia.
    - apply sort_Float64s_elem_of. fold sorted.
      apply list_elem_of_lookup. exists 0.
      apply list_lookup_lookup_total_lt. lia.
    - intros x Hx. apply Sorted_first_min; [apply sort_Float64s_Sorted|].
      by apply sort_Float64s_elem_of. }
  split_and!.
  - intros Hk. by rewrite !bool_decide_true.
  - intros Hk Hp _. rewrite bool_decide_false by lia.
    rewrite percentile_index_nonpos by done. change (Z.to_nat 0) with 0.
    destruct (Hmin Hk) as (m & -> & Hm). by exists m.
  - intros Hk Hk53. rewrite bool_decide_false by lia.
    rewrite percentile_index64_0 by done.
    unfold V3_float64.index_int. rewrite Hlen, bool_decide_true by lia.
    change (Z.to_nat 0) with 0.
    destruct (Hmin Hk) as (m & -> & Hm). by exists m.
  - intros Hk Hp. rewrite bool_decide_false by lia.
    pose proof (percentile_index_above p k Hk Hp).
    rewrite lookup_ge_None_2 by lia. done.
Qed.

Lemma V3_GetPercentile_invalid_rank_witness :
  V3.RingBuffer.size (V3.recentData example_engine)
    ≤ length (V3.RingBuffer.data (V3.recentData example_engine)) ∧
  V3.GetPercentile (Qc_of_Z 101) example_engine = Panic.
Proof.
  split; [vm_compute; lia|].
  refine (proj2 (proj2 (proj2 (V3_GetPercentile_invalid_rank example_engine
                                 (Qc_of_Z 101) F64.zero _))) _ _);
    [vm_compute; lia|vm_compute; lia|by vm_compute].
Defined.

(** C10.  Each query leaves the whole engine state (sum, count, minimum,
    maximum, both heaps, balance counter, ring buffer and cache fields) as
    it found it: [GetMean], [GetMin] and [GetMax] always return, with the
    state they received; [GetMedian] and [GetPercentile], whenever they
    return, return the state they received; and [GetSorted], which sorts a
    copy of the window, returns the ring buffer it received. *)
Theorem V3_queries_preserve_state (ds : V3.DataStreamStats) (p : Qc) :
  (∃ v, V3.GetMean ds = Ok v ds) ∧
  preserves (V3.GetMedian ds) ds ∧
  V3.GetMin ds = Ok (V3.minVal ds) ds ∧
  V3.GetMax ds = Ok (V3.maxVal ds) ds ∧
  preserves (V3.GetPercentile p ds) ds ∧
  preserves (V3.RingBuffer.GetSorted (V3.recentData ds)) (V3.recentData ds).
Proof.
  split_and!.
  - apply V3_GetMean_Ok.
  - apply V3_GetMedian_preserves.
  - done.
  - done.
  - apply V3_GetPercentile_preserves.
  - apply V3_GetSorted_preserves.
Qed.

(** * Further properties of the code *)

(** ** The heaps *)

(** X1.  [heap.Push] of [x] onto a heap-ordered [MaxHeap] leaves a
    heap-ordered slice that holds the old values and [x], and whose root
    ([Peek]) is [x] or an old value and is at least every value it holds. *)
Theorem MaxHeap_Push_correct (h : list Qc) (x : Qc) :
  heap_ordered MaxHeap_less h →
  heap_ordered MaxHeap_less (heap.Push MaxHeap_less h x) ∧
  heap.Push MaxHeap_less h x ≡ₚ x :: h ∧
  ∃ top, heap.Peek (heap.Push MaxHeap_less h x) = Some top ∧
         top ∈ x :: h ∧ ∀ y, y ∈ x :: h → (y ≤ top)%Qc.
Proof.
  intros Hh. destruct (MaxHeap_Push h x Hh) as [Hord Hperm].
  split_and!; [done..|].
  destruct (heap.Push MaxHeap_less h x) as [|top h'] eqn:Hpush.
  { by apply Permutation_nil_cons in Hperm. }
  exists top. split_and!; [done| |].
  - rewrite <-Hperm. apply elem_of_cons. by left.
  - intros y Hy. apply (MaxHeap_Peek_max (top :: h')); [done..|].
    by rewrite Hperm.
Qed.

Lemma MaxHeap_Push_correct_witness :
  heap_ordered MaxHeap_less (obs [9; 5; 7; 1]%Z) ∧
  heap.Push MaxHeap_less (obs [9; 5; 7; 1]%Z) (Qc_of_Z 8)
  ≡ₚ Qc_of_Z 8 :: obs [9; 5; 7; 1]%Z.
Proof.
  assert (H : heap_ordered MaxHeap_less (obs [9; 5; 7; 1]%Z)).
  { intros k Hk. cbn in Hk. destruct k as [|[|[|[|k]]]]; try lia; by vm_compute. }
  split; [exact H|].
  exact (proj1 (proj2 (MaxHeap_Push_correct _ (Qc_of_Z 8) H))).
Defined.

(** X2.  [heap.Pop] on a heap-ordered, non-empty [MaxHeap] returns the
    root, which is at least every value of the heap, and leaves a
    heap-ordered slice that holds the other values. *)
Theorem MaxHeap_Pop_correct (h : list Qc) :
  heap_ordered MaxHeap_less h → h ≠ [] →
  ∃ x h', heap.Pop MaxHeap_less h = Some (x, h') ∧
          heap.Peek h = Some x ∧ (∀ y, y ∈ h → (y ≤ x)%Qc) ∧
          heap_ordered MaxHeap_less h' ∧ h ≡ₚ x :: h'.
Proof.
  intros Hh Hne.
  destruct (MaxHeap_Pop h Hh Hne) as (x & h' & Hpop & Htop & Hord & Hperm).
  exists x, h'. split_and!; [done..| |done|done].
  intros y Hy. by apply (MaxHeap_Peek_max h).
Qed.

Lemma MaxHeap_Pop_correct_witness :
  heap_ordered MaxHeap_less (obs [9; 5; 7; 1]%Z) ∧ obs [9; 5; 7; 1]%Z ≠ [] ∧
  ∃ x h', heap.Pop MaxHeap_less (obs [9; 5; 7; 1]%Z) = Some (x, h') ∧
          heap.Peek (obs [9; 5; 7; 1]%Z) = Some x ∧
          (∀ y, y ∈ obs [9; 5; 7; 1]%Z → (y ≤ x)%Qc) ∧
          heap_ordered MaxHeap_less h' ∧ obs [9; 5; 7; 1]%Z ≡ₚ x :: h'.
Proof.
  assert (H : heap_ordered MaxHeap_less (obs [9; 5; 7; 1]%Z)).
  { intros k Hk. cbn in Hk. destruct k as [|[|[|[|k]]]]; try lia; by vm_compute. }
  split; [exact H|]. split; [done|].
  apply (MaxHeap_Pop_correct _ H). done.
Defined.

(** X3.  [heap.Push] of [x] onto a heap-ordered [MinHeap] leaves a
    heap-ordered slice that holds the old values and [x], and whose root
    ([Peek]) is [x] or an old value and is at most every value it holds. *)
Theorem MinHeap_Push_correct (h : list Qc) (x : Qc) :
  heap_ordered MinHeap_less h →
  heap_ordered MinHeap_less (heap.Push MinHeap_less h x) ∧
  heap.Push MinHeap_less h x ≡ₚ x :: h ∧
  ∃ top, heap.Peek (heap.Push MinHeap_less h x) = Some top ∧
         top ∈ x :: h ∧ ∀ y, y ∈ x :: h → (top ≤ y)%Qc.
Proof.
  intros Hh. destruct (MinHeap_Push h x Hh) as [Hord Hperm].
  split_and!; [done..|].
  destruct (heap.Push MinHeap_less h x) as [|top h'] eqn:Hpush.
  { by apply Permutation_nil_cons in Hperm. }
  exists top. split_and!; [done| |].
  - rewrite <-Hperm. apply elem_of_cons. by left.
  - intros y Hy. apply (MinHeap_Peek_min (top :: h')); [done..|].
    by rewrite Hperm.
Qed.

Lemma MinHeap_Push_correct_witness :
  heap_ordered MinHeap_less (obs [1; 5; 3; 9]%Z) ∧
  heap.Push MinHeap_less (obs [1; 5; 3; 9]%Z) (Qc_of_Z 2)
  ≡ₚ Qc_of_Z 2 :: obs [1; 5; 3; 9]%Z.
Proof.
  assert (H : heap_ordered MinHeap_less (obs [1; 5; 3; 9]%Z)).
  { intros k Hk. cbn in Hk. destruct k as [|[|[|[|k]]]]; try lia; by vm_compute. }
  split; [exact H|].
  exact (proj1 (proj2 (MinHeap_Push_correct _ (Qc_of_Z 2) H))).
Defined.

(** X4.  [heap.Pop] on a heap-ordered, non-empty [MinHeap] returns the
    root, which is at most every value of the heap, and leaves a
    heap-ordered slice that holds the other values. *)
Theorem MinHeap_Pop_correct (h : list Qc) :
  heap_ordered MinHeap_less h → h ≠ [] →
  ∃ x h', heap.Pop MinHeap_less h = Some (x, h') ∧
          heap.Peek h = Some x ∧ (∀ y, y ∈ h → (x ≤ y)%Qc) ∧
          heap_ordered MinHeap_less h' ∧ h ≡ₚ x :: h'.
Proof.
  intros Hh Hne.
  destruct (MinHeap_Pop h Hh Hne) as (x & h' & Hpop & Htop & Hord & Hperm).
  exists x, h'. split_and!; [done..| |done|done].
  intros y Hy. by apply (MinHeap_Peek_min h).
Qed.

Lemma MinHeap_Pop_correct_witness :
  heap_ordered MinHeap_less (obs [1; 5; 3; 9]%Z) ∧ obs [1; 5; 3; 9]%Z ≠ [] ∧
  ∃ x h', heap.Pop MinHeap_less (obs [1; 5; 3; 9]%Z) = Some (x, h') ∧
          heap.Peek (obs [1; 5; 3; 9]%Z) = Some x ∧
          (∀ y, y ∈ obs [1; 5; 3; 9]%Z → (x ≤ y)%Qc) ∧
          heap_ordered MinHeap_less h' ∧ obs [1; 5; 3; 9]%Z ≡ₚ x :: h'.
Proof.
  assert (H : heap_ordered MinHeap_less (obs [1; 5; 3; 9]%Z)).
  { intros k Hk. cbn in Hk. destruct k as [|[|[|[|k]]]]; try lia; by vm_compute. }
  split; [exact H|]. split; [done|].
  apply (MinHeap_Pop_correct _ H). done.
Defined.

(** ** The ring buffer *)

(** X5.  On a new engine of capacity [c > 0] every sequence of
    [AddNumber] calls returns, and afterwards the ring buffer still has
    [c] slots, its size is the number of values recorded, capped at [c],
    its head is that number modulo [c], and read from the oldest slot on
    it holds the most recent values in the order they arrived. *)
Theorem V3_ring_buffer_after_feed (c : nat) (l : list Qc) :
  0 < c →
  ∃ ds, V3.feed l (V3.NewDataStreamStats c) = Ok () ds ∧
        V3.RingBuffer.cap (V3.recentData ds) = c ∧
        length (V3.RingBuffer.data (V3.recentData ds)) = c ∧
        V3.RingBuffer.size (V3.recentData ds) = length l `min` c ∧
        V3.RingBuffer.head (V3.recentData ds) = length l `mod` c ∧
        ring_window (V3.recentData ds) = most_recent (length l `min` c) l.
Proof.
  intros Hc. destruct (V3_feed_new c l Hc) as (ds & Hrun & Hinv).
  destruct Hinv as (_ & _ & _ & _ & _ & _ & _ & _ & Hring & _).
  destruct Hring as (_ & Hcap & Hlen & Hsz & Hhd & Hwin).
  by exists ds.
Qed.

Lemma V3_ring_buffer_after_feed_witness :
  0 < 3 ∧
  ∃ ds, V3.feed (obs [5; 1; 9; 2]%Z) (V3.NewDataStreamStats 3) = Ok () ds ∧
        V3.RingBuffer.cap (V3.recentData ds) = 3 ∧
        length (V3.RingBuffer.data (V3.recentData ds)) = 3 ∧
        V3.RingBuffer.size (V3.recentData ds)
        = length (obs [5; 1; 9; 2]%Z) `min` 3 ∧
        V3.RingBuffer.head (V3.recentData ds)
        = length (obs [5; 1; 9; 2]%Z) `mod` 3 ∧
        ring_window (V3.recentData ds)
        = most_recent (length (obs [5; 1; 9; 2]%Z) `min` 3)
            (obs [5; 1; 9; 2]%Z).
Proof.
  split; [lia|]. apply (V3_ring_buffer_after_feed 3 (obs [5; 1; 9; 2]%Z)). lia.
Defined.

(** X6.  An engine of capacity 0 cannot record anything: the first
    [AddNumber] panics, on the write to [rb.data[rb.head]] of a buffer
    without slots. *)
Theorem V3_zero_capacity_panics (num : Qc) (l : list Qc) :
  V3.AddNumber num (V3.NewDataStreamStats 0) = Panic ∧
  V3.feed (num :: l) (V3.NewDataStreamStats 0) = Panic.
Proof.
  assert (H : V3.AddNumber num (V3.NewDataStreamStats 0) = Panic).
  { rewrite V3_AddNumber_phases. done. }
  split; [done|]. cbn [V3.feed]. unfold mbind, M_bind. by rewrite H.
Qed.

(** X7.  On a buffer whose [size] does not exceed the length of [data], as
    in every buffer that [NewRingBuffer] makes and [Add] fills, [GetSorted]
    returns an ascending slice of length [size] that holds exactly the
    values of [data[:size]], and returns the buffer as it received it. *)
Theorem V3_GetSorted_correct (rb : V3.RingBuffer.t) :
  V3.RingBuffer.size rb ≤ length (V3.RingBuffer.data rb) →
  ∃ sorted,
    V3.RingBuffer.GetSorted rb = Ok sorted rb ∧ Sorted Qcle sorted ∧
    sorted ≡ₚ take (V3.RingBuffer.size rb) (V3.RingBuffer.data rb) ∧
    length sorted = V3.RingBuffer.size rb.
Proof.
  intros Hsz. unfold V3.RingBuffer.GetSorted.
  rewrite bool_decide_true by done. eexists.
  split_and!; [done|apply sort_Float64s_Sorted|apply sort_Float64s_Permutation|].
  rewrite sort_Float64s_length, length_take. lia.
Qed.

Lemma V3_GetSorted_correct_witness :
  V3.RingBuffer.size (V3.recentData example_engine)
    ≤ length (V3.RingBuffer.data (V3.recentData example_engine)) ∧
  ∃ sorted,
    V3.RingBuffer.GetSorted (V3.recentData example_engine)
    = Ok sorted (V3.recentData example_engine) ∧
    Sorted Qcle sorted ∧
    sorted ≡ₚ take (V3.RingBuffer.size (V3.recentData example_engine))
                (V3.RingBuffer.data (V3.recentData example_engine)) ∧
    length sorted = V3.RingBuffer.size (V3.recentData example_engine).
Proof.
  split; [vm_compute; lia|].
  apply (V3_GetSorted_correct (V3.recentData example_engine)).
  vm_compute; lia.
Defined.

(** ** The engine of maths-stats-v3.go *)


(** X8.  On a new engine of capacity [c > 0] no sequence of [AddNumber]
    calls panics; afterwards the balance counter is -1, 0 or 1, both heaps
    are heap-ordered, and [lower] is not empty once a value has been
    recorded. *)
Theorem V3_feed_returns (c : nat) (l : list Qc) :
  0 < c →
  ∃ ds, V3.feed l (V3.NewDataStreamStats c) = Ok () ds ∧
        (-1 ≤ V3.balanceCounter ds ≤ 1)%Z ∧
        heap_ordered MaxHeap_less (V3.lower ds) ∧
        heap_ordered MinHeap_less (V3.upper ds) ∧
        (l ≠ [] → V3.lower ds ≠ []).
Proof.
  intros Hc. destruct (V3_feed_new c l Hc) as (ds & Hrun & Hinv).
  destruct Hinv as (_ & _ & _ & _ & (Hlo & Hup & _) & Hemp & Hbc & Hperm & _).
  exists ds. split_and!; [done|lia|lia|done|done|].
  intros Hne Hnil. destruct (Hemp Hnil) as [Hupn _].
  rewrite Hnil, Hupn in Hperm. apply Permutation_nil_l in Hperm. by subst l.
Qed.

Lemma V3_feed_returns_witness :
  0 < 3 ∧
  ∃ ds, V3.feed (obs [5; 3; 2; 1]%Z) (V3.NewDataStreamStats 3) = Ok () ds ∧
        (-1 ≤ V3.balanceCounter ds ≤ 1)%Z.
Proof.
  split; [lia|].
  destruct (V3_feed_returns 3 (obs [5; 3; 2; 1]%Z)) as (ds & H1 & H2 & _);
    [lia|].
  exists ds. split; [exact H1|exact H2].
Defined.

(** X9.  On a new engine of capacity [c > 0], after every sequence of
    [AddNumber] calls the two heaps together hold exactly the values
    recorded, and every value of [lower] is at most every value of
    [upper]. *)
Theorem V3_heaps_partition_history (c : nat) (l : list Qc) :
  0 < c →
  ∃ ds, V3.feed l (V3.NewDataStreamStats c) = Ok () ds ∧
        V3.lower ds ++ V3.upper ds ≡ₚ l ∧
        ∀ a b, a ∈ V3.lower ds → b ∈ V3.upper ds → (a ≤ b)%Qc.
Proof.
  intros Hc. destruct (V3_feed_new c l Hc) as (ds & Hrun & Hinv).
  destruct Hinv as (_ & _ & _ & _ & (_ & _ & Hle) & _ & _ & Hperm & _).
  by exists ds.
Qed.

Lemma V3_heaps_partition_history_witness :
  0 < 3 ∧
  ∃ ds, V3.feed (obs [5; 3; 2; 1]%Z) (V3.NewDataStreamStats 3) = Ok () ds ∧
        V3.lower ds ++ V3.upper ds ≡ₚ obs [5; 3; 2; 1]%Z.
Proof.
  split; [lia|].
  destruct (V3_heaps_partition_history 3 (obs [5; 3; 2; 1]%Z))
    as (ds & H1 & H2 & _); [lia|].
  exists ds. split; [exact H1|exact H2].
Defined.

(** The roots of the two heaps in the ascending sort of the history: the
    root of [lower] is the value at index [length lower - 1], the root of
    [upper] the value at index [length lower]. *)
Lemma heaps_roots_sorted l lo up :
  heaps_inv lo up → lo ++ up ≡ₚ l →
  (∀ a, heap.Peek lo = Some a → sort_Float64s l !!! (length lo - 1) = a) ∧
  (∀ b, heap.Peek up = Some b → sort_Float64s l !!! length lo = b).
Proof.
  intros (Hlo & Hup & Hle) Hperm.
  rewrite <-(sort_Float64s_proper _ _ Hperm), (sort_Float64s_app _ _ Hle).
  split.
  - intros a Ha.
    assert (0 < length lo) by (apply lookup_lt_Some in Ha; lia).
    rewrite lookup_total_app_l by (rewrite sort_Float64s_length; lia).
    by apply MaxHeap_Peek_sorted_last.
  - intros b Hb.
    rewrite lookup_total_app_r by (rewrite sort_Float64s_length; lia).
    rewrite sort_Float64s_length, Nat.sub_diag.
    by apply MinHeap_Peek_sorted_first.
Qed.



(** ** The cache of maths-stats-v3.go *)

(** X13.  Whenever [AddNumber] returns, it has added the number to the
    running sum, advanced the 64-bit count by one (wrapping), marked the
    cache invalid, and left the cached snapshot, the [cachePercentile] map
    and the capacity of the ring buffer as they were. *)
Theorem V3_AddNumber_effect (num : Qc) (ds ds' : V3.DataStreamStats) :
  V3.AddNumber num ds = Ok () ds' →
  V3.totalSum ds' = (V3.totalSum ds + num)%Qc ∧
  V3.count ds' = wrap64 (V3.count ds + 1) ∧
  V3.cacheUpdated ds' = false ∧
  V3.cached ds' = V3.cached ds ∧
  V3.cachePercentile ds' = V3.cachePercentile ds ∧
  V3.RingBuffer.cap (V3.recentData ds') = V3.RingBuffer.cap (V3.recentData ds) ∧
  length (V3.RingBuffer.data (V3.recentData ds'))
  = length (V3.RingBuffer.data (V3.recentData ds)).
Proof.
  rewrite V3_AddNumber_phases. intros H.
  destruct (V3_heaps _ _ _ _) as [[[lo up] bc]|]; [|done].
  destruct (V3.recentData ds) as [data h sz cp] eqn:Hrb.
  unfold V3.RingBuffer.Add, mbind, M_bind, get, modify, mret, M_ret, lift,
    panic in H.
  cbn -[bool_decide] in H.
  repeat case_bool_decide; repeat case_match; simplify_eq; cbn;
    by rewrite ?length_insert.
Qed.

Lemma V3_AddNumber_effect_witness :
  ∃ ds', V3.AddNumber (Qc_of_Z 7) example_engine = Ok () ds' ∧
         V3.cacheUpdated ds' = false ∧
         V3.cached ds' = V3.cached example_engine.
Proof.
  destruct (V3.AddNumber (Qc_of_Z 7) example_engine) as [[] ds'|] eqn:Hrun;
    [|vm_compute in Hrun; discriminate].
  exists ds'. split; [reflexivity|].
  destruct (V3_AddNumber_effect (Qc_of_Z 7) example_engine ds' Hrun)
    as (_ & _ & Hupd & Hca & _).
  split; [exact Hupd|exact Hca].
Defined.

(** ** The two versions side by side *)

(** The smallest and the largest value of a history are unique. *)
Lemma min_inv_unique hist a b : min_inv hist a → min_inv hist b → a = b.
Proof.
  destruct a as [|a|], b as [|b|]; cbn; try done.
  - intros [Ha Hmina] [Hb Hminb]. f_equal.
    apply (anti_symm Qcle); auto.
  - intros [Ha _] ->. by apply elem_of_nil in Ha.
  - intros -> [Hb _]. by apply elem_of_nil in Hb.
Qed.

Lemma max_inv_unique hist a b : max_inv hist a → max_inv hist b → a = b.
Proof.
  destruct a as [|a|], b as [|b|]; cbn; try done.
  - intros -> [Hb _]. by apply elem_of_nil in Hb.
  - intros [Ha _] ->. by apply elem_of_nil in Ha.
  - intros [Ha Hmaxa] [Hb Hmaxb]. f_equal.
    apply (anti_symm Qcle); auto.
Qed.

(** X15.  Fed with the same values, the engine of maths-stats-v3.go (of
    any capacity [c > 0]) and the engine of part_001 return the same
    [GetMean], [GetMin] and [GetMax], whatever the number of values. *)
Theorem V3_Part001_aggregates_agree (c : nat) (l : list Qc) :
  0 < c →
  value ((V3.feed l;; V3.GetMean) (V3.NewDataStreamStats c))
  = value ((Part001.feed l;; Part001.GetMean) Part001.NewDataStreamStats) ∧
  value ((V3.feed l;; V3.GetMin) (V3.NewDataStreamStats c))
  = value ((Part001.feed l;; Part001.GetMin) Part001.NewDataStreamStats) ∧
  value ((V3.feed l;; V3.GetMax) (V3.NewDataStreamStats c))
  = value ((Part001.feed l;; Part001.GetMax) Part001.NewDataStreamStats).
Proof.
  intros Hc.
  destruct (V3_feed_new c l Hc) as (ds & Hrun & Hinv).
  destruct (Part001_feed_new l) as (ds1 & Hrun1 & Hinv1).
  rewrite !(bind_Ok _ _ _ _ _ Hrun), !(bind_Ok _ _ _ _ _ Hrun1).
  destruct Hinv as (Hsum & Hcnt & Hmin & Hmax & _).
  destruct Hinv1 as (Hsum1 & Hcnt1 & Hmin1 & Hmax1 & _).
  unfold V3.GetMean, V3.GetMin, V3.GetMax, Part001.GetMean, Part001.GetMin,
    Part001.GetMax, mbind, M_bind, get, mret, M_ret.
  rewrite Hsum, Hcnt, Hsum1, Hcnt1. split_and!.
  - by case_bool_decide.
  - cbn. f_equal. by apply (min_inv_unique l).
  - cbn. f_equal. by apply (max_inv_unique l).
Qed.

Lemma V3_Part001_aggregates_agree_witness :
  0 < 3 ∧
  value ((V3.feed (obs [5; 1; 9; 2]%Z);; V3.GetMean) (V3.NewDataStreamStats 3))
  = value ((Part001.feed (obs [5; 1; 9; 2]%Z);; Part001.GetMean)
             Part001.NewDataStreamStats).
Proof.
  split; [lia|].
  refine (proj1 (V3_Part001_aggregates_agree 3 (obs [5; 1; 9; 2]%Z) _)). lia.
Defined.

(** [GetPercentile] of part_001 on a state, by the index of the nearest
    rank. *)
Lemma Part001_GetPercentile_unfold p ds :
  Part001.GetPercentile p ds =
    if bool_decide (length (Part001.sorted ds) = 0) then Ok 0%Qc ds
    else match Part001.sorted ds
                 !! Z.to_nat (V3.percentile_index p
                                (length (Part001.sorted ds)))
         with
         | Some v => Ok v ds
         | None => Panic
         end.
Proof.
  unfold Part001.GetPercentile, V3.percentile_index, mbind, M_bind, get,
    mret, M_ret, lift, panic.
  case_bool_decide; [done|]. by case_match.
Qed.

(** X16.  As long as the ring buffer of maths-stats-v3.go has not
    overflowed (no more values than its capacity), its [GetPercentile]
    has the outcome of [GetPercentile] of part_001 for every rank: the same
    value, or a panic in both. *)
Theorem V3_Part001_percentile_agree (c : nat) (l : list Qc) (p : Qc) :
  0 < c → length l ≤ c →
  value ((V3.feed l;; V3.GetPercentile p) (V3.NewDataStreamStats c))
  = value ((Part001.feed l;; Part001.GetPercentile p)
             Part001.NewDataStreamStats).
Proof.
  intros Hc Hlen.
  destruct (V3_feed_new c l Hc) as (ds & Hrun & Hinv).
  destruct (Part001_feed_new l) as (ds1 & Hrun1 & Hinv1).
  rewrite (bind_Ok _ _ _ _ _ Hrun), (bind_Ok _ _ _ _ _ Hrun1).
  destruct Hinv as (_ & _ & _ & _ & _ & _ & _ & _ & Hring & _).
  destruct Hinv1 as (_ & _ & _ & _ & _ & _ & _ & Hsorted).
  destruct (ring_inv_sorted _ _ _ Hring) as (Hsz & Hle & Hsort).
  rewrite V3_GetPercentile_unfold by done. cbn zeta.
  rewrite Part001_GetPercentile_unfold.
  rewrite Hsort, Hsz, Hsorted, sort_Float64s_length.
  unfold most_recent. rewrite Nat.min_l by done.
  rewrite Nat.sub_diag, drop_0.
  case_bool_decide; [done|]. by case_match.
Qed.

Lemma V3_Part001_percentile_agree_witness :
  0 < 4 ∧ length (obs [5; 1; 9; 2]%Z) ≤ 4 ∧
  value ((V3.feed (obs [5; 1; 9; 2]%Z);; V3.GetPercentile (Qc_of_Z 95))
           (V3.NewDataStreamStats 4))
  = value ((Part001.feed (obs [5; 1; 9; 2]%Z);;
            Part001.GetPercentile (Qc_of_Z 95)) Part001.NewDataStreamStats).
Proof.
  split; [lia|]. split; [cbn; lia|].
  apply (V3_Part001_percentile_agree 4 (obs [5; 1; 9; 2]%Z)); [lia|cbn; lia].
Defined.

(** ** The engine of part_001 *)

(** X17.  In part_001 no sequence of [AddNumber] calls on a new engine
    panics; afterwards both heaps are heap-ordered, together they hold
    exactly the values recorded, every value of [lower] is at most every
    value of [upper], and [lower] holds the larger half: (n + 1) / 2 of
    the n values, [upper] the other n / 2. *)
Theorem Part001_feed_heaps (l : list Qc) :
  ∃ ds, Part001.feed l Part001.NewDataStreamStats = Ok () ds ∧
        heap_ordered MaxHeap_less (Part001.lower ds) ∧
        heap_ordered MinHeap_less (Part001.upper ds) ∧
        Part001.lower ds ++ Part001.upper ds ≡ₚ l ∧
        (∀ a b, a ∈ Part001.lower ds → b ∈ Part001.upper ds → (a ≤ b)%Qc) ∧
        length (Part001.lower ds) = (length l + 1) / 2 ∧
        length (Part001.upper ds) = length l / 2.
Proof.
  destruct (Part001_feed_new l) as (ds & Hrun & Hinv).
  destruct Hinv as (_ & _ & _ & _ & (Hlo & Hup & Hle) & Hbal & Hperm & _).
  exists ds. pose proof (Permutation_length Hperm) as Hlen.
  rewrite length_app in Hlen.
  split_and!; [done..| |]; lia.
Qed.

(** X18.  In part_001 the binary insertion keeps the slice [sorted] in
    ascending order, and it holds exactly the values recorded. *)
Theorem Part001_sorted_slice (l : list Qc) :
  ∃ ds, Part001.feed l Part001.NewDataStreamStats = Ok () ds ∧
        Sorted Qcle (Part001.sorted ds) ∧ Part001.sorted ds ≡ₚ l.
Proof.
  destruct (Part001_feed_new l) as (ds & Hrun & Hinv).
  destruct Hinv as (_ & _ & _ & _ & _ & _ & _ & Hsorted).
  exists ds. rewrite Hsorted.
  split_and!; [done|apply sort_Float64s_Sorted|apply sort_Float64s_Permutation].
Qed.

(** [GetMedian] of part_001 on the state after the history [l]. *)
Lemma Part001_GetMedian_inv l ds :
  Part001_inv l ds → (Z.of_nat (length l) < 2 ^ 63)%Z →
  let s := sort_Float64s l in
  let n := length l in
  (n = 0 → Part001.GetMedian ds = Ok 0%Qc ds) ∧
  (Nat.odd n = true → Part001.GetMedian ds = Ok (s !!! (n / 2)) ds) ∧
  (0 < n → Nat.odd n = false →
   heap.Peek (Part001.lower ds) = Some (s !!! (n / 2 - 1)) ∧
   heap.Peek (Part001.upper ds) = Some (s !!! (n / 2))).
Proof.
  intros Hinv Hlen s n.
  destruct Hinv as (_ & Hcnt & _ & _ & Hheaps & Hbal & Hperm & _).
  rewrite wrap64_small in Hcnt by lia.
  destruct (heaps_roots_sorted l _ _ Hheaps Hperm) as [Hlo Hup].
  assert (Hn : n = length (Part001.lower ds) + length (Part001.upper ds)).
  { subst n. by rewrite <-Hperm, length_app. }
  unfold Part001.GetMedian, mbind, M_bind, get, lift.
  rewrite Hcnt. fold n. split_and!.
  - intros ->. by rewrite bool_decide_true.
  - intros [k Hk]%Nat.odd_spec.
    rewrite bool_decide_false, bool_decide_true by lia.
    assert (0 < length (Part001.lower ds)) as Hpos by lia.
    destruct (lookup_lt_is_Some_2 _ 0 Hpos) as [a Ha].
    unfold heap.Peek in *. rewrite Ha. unfold mret, M_ret. do 2 f_equal.
    rewrite <-(Hlo a Ha). fold s. f_equal. lia.
  - intros Hpos Hodd. rewrite <-Nat.negb_even in Hodd.
    apply negb_false_iff, Nat.even_spec in Hodd as [k Hk].
    assert (0 < length (Part001.lower ds)) as Hlpos by lia.
    assert (0 < length (Part001.upper ds)) as Hupos by lia.
    destruct (lookup_lt_is_Some_2 _ 0 Hlpos) as [a Ha].
    destruct (lookup_lt_is_Some_2 _ 0 Hupos) as [b Hb].
    unfold heap.Peek in *. rewrite Ha, Hb. split; f_equal.
    + rewrite <-(Hlo a Ha). fold s. f_equal. lia.
    + rewrite <-(Hup b Hb). fold s. f_equal. lia.
Qed.

(** X19.  In part_001, after [n] values, fewer than 2^63: [GetMedian]
    returns 0 for [n = 0] and, for an odd [n], the middle value of the
    ascending sort of all values recorded, their median; for an even
    [n > 0] the roots of the two heaps, of which [GetMedian] returns the
    midpoint, are the two middle values of that sort. *)
Theorem Part001_GetMedian_middle (l : list Qc) :
  (Z.of_nat (length l) < 2 ^ 63)%Z →
  let s := sort_Float64s l in
  let n := length l in
  ∃ ds, Part001.feed l Part001.NewDataStreamStats = Ok () ds ∧
        (n = 0 → Part001.GetMedian ds = Ok 0%Qc ds) ∧
        (Nat.odd n = true → Part001.GetMedian ds = Ok (s !!! (n / 2)) ds) ∧
        (0 < n → Nat.odd n = false →
         heap.Peek (Part001.lower ds) = Some (s !!! (n / 2 - 1)) ∧
         heap.Peek (Part001.upper ds) = Some (s !!! (n / 2))).
Proof.
  intros Hlen s n. destruct (Part001_feed_new l) as (ds & Hrun & Hinv).
  exists ds. split; [done|]. by apply Part001_GetMedian_inv.
Qed.

Lemma Part001_GetMedian_middle_witness :
  (Z.of_nat (length (obs [5; 1; 9]%Z)) < 2 ^ 63)%Z ∧
  value ((Part001.feed (obs [5; 1; 9]%Z);; Part001.GetMedian)
           Part001.NewDataStreamStats)
  = Some (sort_Float64s (obs [5; 1; 9]%Z) !!! (length (obs [5; 1; 9]%Z) / 2)).
Proof.
  split; [vm_compute; reflexivity|].
  destruct (Part001_GetMedian_middle (obs [5; 1; 9]%Z))
    as (ds & Hrun & _ & Hmed & _); [vm_compute; reflexivity|].
  rewrite (bind_Ok _ _ _ _ _ Hrun). rewrite Hmed; reflexivity.
Defined.

(** [GetPercentile] of part_001 on the state after the history [l]. *)
Lemma Part001_GetPercentile_inv l ds p :
  Part001_inv l ds →
  Part001.GetPercentile p ds =
    if bool_decide (length l = 0) then Ok 0%Qc ds
    else match sort_Float64s l
                 !! Z.to_nat (V3.percentile_index p (length l)) with
         | Some v => Ok v ds
         | None => Panic
         end.
Proof.
  intros (_ & _ & _ & _ & _ & _ & _ & Hsorted).
  by rewrite Part001_GetPercentile_unfold, Hsorted, sort_Float64s_length.
Qed.

Lemma length_pos_ne_nil {A} (l : list A) : l ≠ [] → 0 < length l.
Proof. destruct l; [done|cbn; lia]. Qed.

(** X21.  In part_001, after a non-empty history of [n] values, fewer
    than 2^53, [GetPercentile 100] returns what [GetMax] returns, and
    [GetPercentile p] returns what [GetMin] returns for every rank
    [p <= 0] whose product [(p / 100) * n] is at least [-2^62], which keeps
    the index of the code inside [int64]. *)
Theorem Part001_GetPercentile_extremes (l : list Qc) (p : Qc) :
  l ≠ [] → (Z.of_nat (length l) < 2 ^ 53)%Z → (p ≤ 0)%Qc →
  (Qc_of_Z (- 2 ^ 62) ≤ p / Qc_of_Z 100 * float64_of_nat (length l))%Qc →
  ∃ lo hi,
    value ((Part001.feed l;; Part001.GetMin) Part001.NewDataStreamStats)
    = Some (Fin lo) ∧
    value ((Part001.feed l;; Part001.GetPercentile p)
             Part001.NewDataStreamStats) = Some lo ∧
    value ((Part001.feed l;; Part001.GetMax) Part001.NewDataStreamStats)
    = Some (Fin hi) ∧
    value ((Part001.feed l;; Part001.GetPercentile (Qc_of_Z 100))
             Part001.NewDataStreamStats) = Some hi.
Proof.
  intros Hne _ Hp _. pose proof (length_pos_ne_nil l Hne) as Hlen.
  destruct (Part001_feed_new l) as (ds & Hrun & Hinv).
  rewrite !(bind_Ok _ _ _ _ _ Hrun), !(Part001_GetPercentile_inv l) by done.
  destruct Hinv as (_ & _ & Hmin & Hmax & _).
  rewrite bool_decide_false by lia.
  rewrite percentile_index_nonpos, percentile_index_100 by done.
  set (s := sort_Float64s l).
  assert (Hs : length s = length l) by apply sort_Float64s_length.
  rewrite !(list_lookup_lookup_total_lt s) by lia.
  unfold Part001.GetMin, Part001.GetMax, mbind, M_bind, get, mret, M_ret.
  cbn [value].
  replace (Z.to_nat (Z.of_nat (length l) - 1)) with (length s - 1) by lia.
  change (Z.to_nat 0) with 0.
  assert (min_inv l (Fin (s !!! 0))) as Hmin'.
  { split.
    - apply sort_Float64s_elem_of, list_elem_of_lookup. exists 0.
      apply list_lookup_lookup_total_lt. fold s. lia.
    - intros x Hx. apply Sorted_first_min; [apply sort_Float64s_Sorted|].
      by apply sort_Float64s_elem_of. }
  assert (max_inv l (Fin (s !!! (length s - 1)))) as Hmax'.
  { split.
    - apply sort_Float64s_elem_of, list_elem_of_lookup. exists (length s - 1).
      apply list_lookup_lookup_total_lt. fold s. lia.
    - intros x Hx. apply Sorted_last_max; [apply sort_Float64s_Sorted|].
      by apply sort_Float64s_elem_of. }
  exists (s !!! 0), (s !!! (length s - 1)).
  rewrite (min_inv_unique l _ _ Hmin Hmin'), (max_inv_unique l _ _ Hmax Hmax').
  done.
Qed.

Lemma Part001_GetPercentile_extremes_witness :
  obs [5; 1; 9; 2]%Z ≠ [] ∧
  (Z.of_nat (length (obs [5; 1; 9; 2]%Z)) < 2 ^ 53)%Z ∧ (Qc_of_Z 0 ≤ 0)%Qc ∧
  (Qc_of_Z (- 2 ^ 62)
   ≤ Qc_of_Z 0 / Qc_of_Z 100 * float64_of_nat (length (obs [5; 1; 9; 2]%Z)))%Qc ∧
  ∃ lo hi,
    value ((Part001.feed (obs [5; 1; 9; 2]%Z);; Part001.GetMin)
             Part001.NewDataStreamStats) = Some (Fin lo) ∧
    value ((Part001.feed (obs [5; 1; 9; 2]%Z);;
            Part001.GetPercentile (Qc_of_Z 0)) Part001.NewDataStreamStats)
    = Some lo ∧
    value ((Part001.feed (obs [5; 1; 9; 2]%Z);; Part001.GetMax)
             Part001.NewDataStreamStats) = Some (Fin hi) ∧
    value ((Part001.feed (obs [5; 1; 9; 2]%Z);;
            Part001.GetPercentile (Qc_of_Z 100)) Part001.NewDataStreamStats)
    = Some hi.
Proof.
  split; [done|]. split; [vm_compute; reflexivity|].
  split; [by vm_compute|]. split; [by vm_compute|].
  apply (Part001_GetPercentile_extremes (obs [5; 1; 9; 2]%Z) (Qc_of_Z 0));
    [done|vm_compute; reflexivity|by vm_compute|by vm_compute].
Defined.



(** X23.  [GetPercentile] of part_001 checks no rank: on a new engine it
    returns 0 for every rank, and after a non-empty history a rank above
    100 indexes past the end of [sorted], which panics. *)
Theorem Part001_GetPercentile_invalid_rank (l : list Qc) (p : Qc) :
  value (Part001.GetPercentile p Part001.NewDataStreamStats) = Some 0%Qc ∧
  (l ≠ [] → (Qc_of_Z 100 < p)%Qc →
   (Part001.feed l;; Part001.GetPercentile p) Part001.NewDataStreamStats
   = Panic).
Proof.
  split; [done|]. intros Hne Hp.
  pose proof (length_pos_ne_nil l Hne) as Hlen.
  destruct (Part001_feed_new l) as (ds & Hrun & Hinv).
  rewrite (bind_Ok _ _ _ _ _ Hrun), (Part001_GetPercentile_inv l) by done.
  rewrite bool_decide_false by lia.
  pose proof (percentile_index_above p _ Hlen Hp).
  rewrite lookup_ge_None_2 by (rewrite sort_Float64s_length; lia). done.
Qed.

(** X24.  Each query of part_001 leaves the engine state as it found it:
    [GetMean], [GetMin] and [GetMax] always return, with the state they
    received; [GetMedian] and [GetPercentile], whenever they return,
    return the state they received. *)
Theorem Part001_queries_preserve_state (ds : Part001.DataStreamStats)
  (p : Qc) :
  (∃ v, Part001.GetMean ds = Ok v ds) ∧
  preserves (Part001.GetMedian ds) ds ∧
  Part001.GetMin ds = Ok (Part001.minVal ds) ds ∧
  Part001.GetMax ds = Ok (Part001.maxVal ds) ds ∧
  preserves (Part001.GetPercentile p ds) ds.
Proof.
  split_and!; [| |done|done|].
  - unfold Part001.GetMean, mbind, M_bind, get, mret, M_ret.
    case_bool_decide; eauto.
  - unfold Part001.GetMedian, heap.Peek, mbind, M_bind, get, mret, M_ret,
      lift, panic.
    repeat case_bool_decide; try done;
      by destruct (Part001.lower ds !! 0), (Part001.upper ds !! 0).
  - rewrite Part001_GetPercentile_unfold.
    case_bool_decide; [done|]. by case_match.
Qed.

(** The index of the rank 50 among [n] values is [(n + 1) / 2 - 1]. *)
Lemma percentile_index_50 n :
  0 < n → V3.percentile_index (Qc_of_Z 50) n = (Z.of_nat ((n + 1) / 2) - 1)%Z.
Proof.
  intros Hn. unfold V3.percentile_index, float64_of_nat.
  replace (Qc_of_Z 50 / Qc_of_Z 100)%Qc with (Q2Qc (1 # 2))
    by (by apply Qc_is_canon).
  assert (Qceiling (Q2Qc (1 # 2) * Qc_of_Z (Z.of_nat n))%Qc
          = Z.of_nat ((n + 1) / 2)) as ->.
  { cbn [Qcmult this Q2Qc Qc_of_Z].
    rewrite (Qceiling_comp _ _ (Qred_correct _)).
    rewrite (Qceiling_comp (Qred (1 # 2) * inject_Z (Z.of_nat n))
               ((1 # 2) * inject_Z (Z.of_nat n)))
      by (by rewrite !Qred_correct).
    unfold Qceiling, Qfloor, Qopp, Qmult, inject_Z. cbn [Qnum Qden].
    change (2 * 1)%positive with 2%positive. lia. }
  rewrite bool_decide_false; lia.
Qed.

(** X25.  In part_001, after an odd number of values, fewer than 2^53,
    [GetPercentile 50] returns what [GetMedian] returns: the middle value
    of the ascending sort.  (The rank arithmetic is exact here: 50 / 100 is
    1/2 and half an integer below 2^53 is a binary64.) *)
Theorem Part001_GetPercentile_50_GetMedian (l : list Qc) :
  Nat.odd (length l) = true → (Z.of_nat (length l) < 2 ^ 53)%Z →
  ∃ v,
    value ((Part001.feed l;; Part001.GetPercentile (Qc_of_Z 50))
             Part001.NewDataStreamStats) = Some v ∧
    value ((Part001.feed l;; Part001.GetMedian) Part001.NewDataStreamStats)
    = Some v.
Proof.
  intros Hodd Hlen.
  assert (0 < length l) as Hpos by (destruct l; [done|cbn; lia]).
  destruct (Part001_feed_new l) as (ds & Hrun & Hinv).
  destruct (Part001_GetMedian_inv l ds Hinv) as (_ & Hmed & _); [lia|].
  rewrite !(bind_Ok _ _ _ _ _ Hrun), (Hmed Hodd).
  rewrite (Part001_GetPercentile_inv l) by done.
  rewrite bool_decide_false by lia.
  rewrite percentile_index_50 by done.
  set (s := sort_Float64s l).
  assert (Hs : length s = length l) by apply sort_Float64s_length.
  rewrite (list_lookup_lookup_total_lt s) by lia.
  assert (Z.to_nat (Z.of_nat ((length l + 1) / 2) - 1) = length l / 2) as ->.
  { apply Nat.odd_spec in Hodd as [k Hk]. lia. }
  by eexists.
Qed.

Lemma Part001_GetPercentile_50_GetMedian_witness :
  Nat.odd (length (obs [3; 1; 2]%Z)) = true ∧
  (Z.of_nat (length (obs [3; 1; 2]%Z)) < 2 ^ 53)%Z ∧
  ∃ v,
    value ((Part001.feed (obs [3; 1; 2]%Z);;
            Part001.GetPercentile (Qc_of_Z 50)) Part001.NewDataStreamStats)
    = Some v ∧
    value ((Part001.feed (obs [3; 1; 2]%Z);; Part001.GetMedian)
             Part001.NewDataStreamStats) = Some v.
Proof.
  split; [done|]. split; [vm_compute; reflexivity|].
  apply (Part001_GetPercentile_50_GetMedian (obs [3; 1; 2]%Z));
    [done|vm_compute; reflexivity].
Defined.

(** ** Goroutines of part_001 *)

(** X26.  In part_001 a goroutine runs [AddNumber(num)], here in three
    steps, while another runs a method that only reads (a query).  In
    every schedule, when the query is inside its critical section and
    about to run its body, the engine is the one from before the call of
    [AddNumber] or the one [AddNumber] leaves when it has returned: the
    mutex keeps the query out of the states in between. *)
Theorem Part001_AddNumber_atomic {A} (num : Qc)
    (q : M Part001.DataStreamStats A) (ds0 : Part001.DataStreamStats)
    (sched : list nat)
    (cfg : Locks.config Part001_locks.Mutex Part001.DataStreamStats) :
  (∀ s, preserves (q s) s) →
  Locks.run sched
    (Locks.mkConfig [] ds0
       [Part001_locks.AddNumber num; Part001_locks.method q])
  = Locks.Next cfg →
  Locks.threads cfg !! 1
  = Some [Locks.Run q; Locks.Unlock Part001_locks.mu] →
  Locks.store cfg = ds0 ∨
  Part001.AddNumber num ds0 = Ok () (Locks.store cfg).
Proof.
  intros Hq Hrun Hat.
  assert (Part001_reached num q ds0
            (Locks.mkConfig [] ds0
               [Part001_locks.AddNumber num; Part001_locks.method q]))
    as Hinit.
  { exists 0, 0. cbn. split_and!; try done; lia. }
  destruct (Part001_reached_run num q ds0 sched _ _ Hq Hinit Hrun)
    as (i & j & Hth & Hi & Hj & Hex & Hheld & Hst).
  rewrite Hth in Hat. cbn in Hat.
  assert (j = 1) as ->.
  { destruct j as [|[|[|[|j]]]]; cbn in Hat; simplify_eq; done || lia. }
  assert (i = 0 ∨ i = 5) as [-> | ->] by lia.
  - left. cbn in Hst. unfold mret, M_ret in Hst. by simplify_eq.
  - right. rewrite <-Part001_locks_AddNumber_alone. exact Hst.
Qed.

Lemma Part001_AddNumber_atomic_witness :
  (∀ s, preserves (Part001.GetMedian s) s) ∧
  ∃ cfg,
    Locks.run [0; 0; 0; 0; 0; 1]
      (Locks.mkConfig [] Part001.NewDataStreamStats
         [Part001_locks.AddNumber (Qc_of_Z 7);
          Part001_locks.method Part001.GetMedian])
    = Locks.Next cfg ∧
    Locks.threads cfg !! 1
    = Some [Locks.Run Part001.GetMedian; Locks.Unlock Part001_locks.mu] ∧
    (Locks.store cfg = Part001.NewDataStreamStats ∨
     Part001.AddNumber (Qc_of_Z 7) Part001.NewDataStreamStats
     = Ok () (Locks.store cfg)).
Proof.
  split; [apply Part001_GetMedian_preserves|].
  eexists. split; [vm_compute; reflexivity|]. split; [reflexivity|].
  eapply (Part001_AddNumber_atomic (Qc_of_Z 7) Part001.GetMedian
            Part001.NewDataStreamStats [0; 0; 0; 0; 0; 1]);
    [apply Part001_GetMedian_preserves|vm_compute; reflexivity|reflexivity].
Defined.
